(** * pirpo: the unit converter of [src/include/converter.h]

    A shallow embedding of the conversion core: the affine transform
    [linear], the unit catalog, the six [metric_conversion_type]
    specializations, the converters generated by [converter_traits], the
    chain of [responsible_impl] handlers that [converter::process] walks, the
    factory's cache of transforms, and the request handler of [main.cpp].

    The C++ code computes on [float].  The embedding is written once over an
    interface [FloatOps] of the operations the source uses, and read at two
    instances:
    - [binary32]: IEEE 754 single precision (24 bits of precision, round to
      nearest even), through the standard library's [SpecFloat]; every [float]
      operation of the source is one correctly rounded operation, no fused
      multiply-add;
    - [exact]: the rationals, the arithmetic that the floating-point
      operations approximate.

    What is stated of every [float] value is stated and proved at
    [binary32], through a bound on the rounding error of each operation. *)

From Stdlib Require Import ZArith QArith Qcanon Qcabs Qabs Qpower Ascii String List Bool
  Lia Lqa.
From Stdlib Require Import Permutation.
From Stdlib Require Import Floats.SpecFloat.
Import ListNotations.

Local Open Scope string_scope.
Local Open Scope list_scope.
Local Open Scope Z_scope.

(** ** The arithmetic of [float] *)

Class FloatOps (F : Type) := {
  (** the number written [num/den] in decimal, e.g. the literal [453.592f]
      is [fconst 453592 1000] *)
  fconst : Z -> positive -> F;
  fadd : F -> F -> F;
  fsub : F -> F -> F;
  fmul : F -> F -> F;
  fdiv : F -> F -> F;
  fabs : F -> F;
  fltb : F -> F -> bool
}.

Module Binary32.

Definition prec : Z := 24.
Definition emax : Z := 128.

Definition float := spec_float.

(** A decimal literal is rounded to the nearest [float]: the quotient of
    the two integers, rounded once. *)
Definition of_decimal (num : Z) (den : positive) : float :=
  match num with
  | Z0 => S754_zero false
  | Zpos n => SFdiv prec emax (S754_finite false n 0) (S754_finite false den 0)
  | Zneg n => SFdiv prec emax (S754_finite true n 0) (S754_finite false den 0)
  end.

(** The rational a finite [float] stands for (0 for the others). *)
Definition to_Q (x : float) : Q :=
  match x with
  | S754_finite s m e =>
      let a :=
        match e with
        | Z0 => Zpos m # 1
        | Zpos p => Zpos (m * 2 ^ p) # 1
        | Zneg p => Zpos m # 2 ^ p
        end in
      if s then Qopp a else a
  | _ => 0%Q
  end.

Definition is_finite (x : float) : bool :=
  match x with
  | S754_zero _ | S754_finite _ _ _ => true
  | _ => false
  end.

End Binary32.

#[export] Instance binary32 : FloatOps Binary32.float := {
  fconst := Binary32.of_decimal;
  fadd := SFadd Binary32.prec Binary32.emax;
  fsub := SFsub Binary32.prec Binary32.emax;
  fmul := SFmul Binary32.prec Binary32.emax;
  fdiv := SFdiv Binary32.prec Binary32.emax;
  fabs := SFabs;
  fltb := SFltb
}.

#[export] Instance exact : FloatOps Qc := {
  fconst := fun num den => Q2Qc (num # den);
  fadd := Qcplus;
  fsub := Qcminus;
  fmul := Qcmult;
  fdiv := Qcdiv;
  fabs := Qcabs;
  fltb := fun x y => match (x ?= y)%Qc with Lt => true | _ => false end
}.

(** ** Exceptions

    [linear]'s constructor throws a string literal; everything that
    constructs a transform can therefore fail. *)

Inductive error : Type :=
| thrown (what : string)
| incomplete_type.  (* a [metric_conversion_type<P, M>] that is only declared *)

Definition exn (A : Type) : Type := (error + A)%type.

Definition ret {A} (a : A) : exn A := inr a.
Definition throw {A} (what : string) : exn A := inl (thrown what).
Definition bind {A B} (c : exn A) (k : A -> exn B) : exn B :=
  match c with
  | inl e => inl e
  | inr a => k a
  end.

Notation "x <- c ;; k" := (bind c (fun x => k))
  (at level 61, c at next level, right associativity).

(** ** Metrics *)

Inductive metric : Type :=
| gramm | lb | pood
| meter | mile | verst
| celsius | fahrenheit | kelvin.

Definition signature (u : metric) : string :=
  match u with
  | gramm => "g" | lb => "lb" | pood => "p"
  | meter => "m" | mile => "ml" | verst => "v"
  | celsius => "c" | fahrenheit => "f" | kelvin => "k"
  end.

(** [std::is_same] on two metric types. *)
Definition is_same (a b : metric) : bool :=
  match a, b with
  | gramm, gramm | lb, lb | pood, pood
  | meter, meter | mile, mile | verst, verst
  | celsius, celsius | fahrenheit, fahrenheit | kelvin, kelvin => true
  | _, _ => false
  end.

(** A group [std::tuple<primary, minors...>]. *)
Record metrics : Type := { primary : metric; minors : list metric }.

Definition weight_metrics : metrics := {| primary := gramm; minors := [lb; pood] |}.
Definition distance_metrics : metrics := {| primary := meter; minors := [mile; verst] |}.
Definition temperature_metrics : metrics :=
  {| primary := celsius; minors := [fahrenheit; kelvin] |}.

Section Converter.

Context {F : Type} `{FloatOps F}.

(** ** [class linear] *)

Record linear : Type := {
  m_factor : F;
  m_divider : F;
  m_offset : F
}.

Definition EPSILON : F := fconst 1 10000000000.

(** [linear(float factor = 1.f, float offset = 0.f)] *)
Definition linear_new (factor offset : F) : exn linear :=
  if fltb (fabs factor) EPSILON then
    throw "'factor' argument is too small!"
  else
    ret {| m_factor := factor;
           m_divider := fdiv (fconst 1 1) factor;
           m_offset := offset |}.

Definition linear_forward (l : linear) (value : F) : F :=
  fadd (fmul (m_factor l) value) (m_offset l).

Definition linear_backward (l : linear) (value : F) : F :=
  fmul (fsub value (m_offset l)) (m_divider l).

(** ** [metric_conversion_type<_primary, _minor>]

    The six specializations.  An object is its [linear] base together with
    the two member functions that a call through the object's static type
    selects; only <celsius, fahrenheit> hides the inherited ones. *)

Record metric_conversion_type : Type := {
  base : linear;
  forward : F -> F;
  backward : F -> F
}.

Definition inherit (l : linear) : metric_conversion_type :=
  {| base := l; forward := linear_forward l; backward := linear_backward l |}.

Definition metric_conversion_type_new (p m : metric) : exn metric_conversion_type :=
  match p, m with
  | gramm, lb =>
      l <- linear_new (fconst 453592 1000) (fconst 0 1) ;; ret (inherit l)
  | gramm, pood =>
      l <- linear_new (fconst 163807 10) (fconst 0 1) ;; ret (inherit l)
  | meter, mile =>
      l <- linear_new (fconst 160934 100) (fconst 0 1) ;; ret (inherit l)
  | meter, verst =>
      l <- linear_new (fconst 10668 10) (fconst 0 1) ;; ret (inherit l)
  | celsius, fahrenheit =>
      l <- linear_new (fdiv (fconst 9 1) (fconst 5 1)) (fconst 32 1) ;;
      ret {| base := l;
             forward := fun value => linear_backward l value;
             backward := fun value => linear_forward l value |}
  | celsius, kelvin =>
      l <- linear_new (fconst 1 1) (fconst 27315 100) ;; ret (inherit l)
  | _, _ => inl incomplete_type
  end.

(** ** [converter_factory::converter<_primary, _minor>()]

    The factory keeps one object per pair and builds it on first use.
    Construction reads nothing but literals, so the cached object is the
    one a fresh construction gives. *)
Definition converter (p m : metric) : exn metric_conversion_type :=
  metric_conversion_type_new p m.

(** ** The converters *)

Inductive metrics_converter : Type :=
| primary_metrics_converter (_primary _minor : metric) (_direction : bool)
| minor_metrics_converter (_primary _first_minor _second_minor : metric).

Definition from_signature (c : metrics_converter) : string :=
  match c with
  | primary_metrics_converter p m d => signature (if negb d then p else m)
  | minor_metrics_converter _ _ second => signature second
  end.

Definition to_signature (c : metrics_converter) : string :=
  match c with
  | primary_metrics_converter p m d => signature (if d then p else m)
  | minor_metrics_converter _ first _ => signature first
  end.

Definition convert (c : metrics_converter) (value : F) : exn F :=
  match c with
  | primary_metrics_converter p m d =>
      if is_same p m then ret value
      else if d then
        t <- converter p m ;; ret (forward t value)
      else
        t <- converter p m ;; ret (backward t value)
  | minor_metrics_converter p first second =>
      if is_same first second then ret value
      else
        t2 <- converter p second ;;
        t1 <- converter p first ;;
        ret (forward t2 (backward t1 value))
  end.

(** ** [converter_traits<std::tuple<_primary, _minors...>>] *)

Definition combined (p first : metric) (others : list metric) : list metrics_converter :=
  map (fun other => minor_metrics_converter p first other) others.

Definition primary_minor_conversions (g : metrics) : list metrics_converter :=
  map (fun m => primary_metrics_converter (primary g) m true) (minors g).

Definition minor_primary_conversions (g : metrics) : list metrics_converter :=
  map (fun m => primary_metrics_converter (primary g) m false) (minors g).

Definition minor_conversions (g : metrics) : list metrics_converter :=
  concat (map (fun m => combined (primary g) m (minors g)) (minors g)).

Definition converter_traits (g : metrics) : list metrics_converter :=
  primary_minor_conversions g ++ minor_primary_conversions g ++ minor_conversions g.

(** ** The chain of responsibility

    A [responsible_impl] owns its converter and the next handler; the chain
    is the list of converters from its head, [[]] for a null pointer. *)

Definition responsible : Type := list metrics_converter.

Definition is_reponsible (c : metrics_converter) (from to : string) : bool :=
  String.eqb (from_signature c) from && String.eqb (to_signature c) to.

Fixpoint responsible_process (r : responsible) (from to : string) (value : F)
  : exn (option F) :=
  match r with
  | [] => ret None
  | c :: m_next =>
      if is_reponsible c from to then
        x <- convert c value ;; ret (Some x)
      else
        responsible_process m_next from to value
  end.

(** ** [class converter<_metrics...>]

    [add_responsibles] puts each new actor in front of the chain built so
    far, one converter of the group after the other. *)

Fixpoint add_responsibles (converters : list metrics_converter)
                          (m_responsible : responsible) : responsible :=
  match converters with
  | [] => m_responsible
  | first_type :: other_types =>
      add_responsibles other_types (first_type :: m_responsible)
  end.

Fixpoint add_responsible_groups (groups : list metrics)
                                (m_responsible : responsible) : responsible :=
  match groups with
  | [] => m_responsible
  | first :: rest =>
      add_responsible_groups rest
        (add_responsibles (converter_traits first) m_responsible)
  end.

(** The singleton [converter<weight_metrics, distance_metrics,
    temperature_metrics>::instance()] of [main.cpp]. *)
Definition instance : responsible :=
  add_responsible_groups [weight_metrics; distance_metrics; temperature_metrics] [].

Definition process (from to : string) (value : F) : exn (option F) :=
  match instance with
  | [] => ret None
  | _ => responsible_process instance from to value
  end.

End Converter.

(** ** Definitions used by the statements *)

(** The handler that answers a request: the first responsible one. *)
Fixpoint find_responsible (r : responsible) (from to : string) : option metrics_converter :=
  match r with
  | [] => None
  | c :: m_next =>
      if is_reponsible c from to then Some c else find_responsible m_next from to
  end.

(** The pairs for which a [metric_conversion_type] is declared: the primary
    of each group with each of its minors. *)
Definition declared_pairs : list (metric * metric) :=
  flat_map (fun g => map (fun m => (primary g, m)) (minors g))
           [weight_metrics; distance_metrics; temperature_metrics].

(** The ordered pairs of distinct minors of one group. *)
Definition minor_pairs : list (metric * metric) :=
  flat_map (fun g =>
    flat_map (fun m1 =>
      flat_map (fun m2 => if is_same m1 m2 then [] else [(m1, m2)]) (minors g))
      (minors g))
    [weight_metrics; distance_metrics; temperature_metrics].

(** [x] is [expected] up to the relative error [rel] and the absolute
    error [abs]. *)
Definition near (rel abs x expected : Q) : Prop :=
  (Qabs (x - expected) <= rel * Qabs expected + abs)%Q.

(** The magnitude up to which the statements below exclude an overflow. *)
Definition range : Q := inject_Z (10 ^ 24).

(** The absolute error that results below the normal range leave. *)
Definition tiny : Q := 1 # 10 ^ 40.

(** The absolute error a round trip to and from the unit [m] leaves: the
    offsets of the temperature transforms absorb what is small against
    them; the other transforms have no offset. *)
Definition slack (m : metric) : Q :=
  match m with
  | celsius | fahrenheit | kelvin => 1 # 10000
  | _ => tiny
  end.

(** The answer to a request: [process from to v] returns a number, which is
    near [expected] when it is finite, and which is finite when [v] is
    finite and within [range]. *)
Definition converts_to (rel abs : Q) (from to : string) (v : Binary32.float)
                       (expected : Q) : Prop :=
  exists r : Binary32.float,
    process from to v = ret (Some r)
    /\ (Binary32.is_finite r = true ->
        Binary32.is_finite v = true /\ near rel abs (Binary32.to_Q r) expected)
    /\ (Binary32.is_finite v = true -> (Qabs (Binary32.to_Q v) <= range)%Q ->
        Binary32.is_finite r = true).

(** ** Definitions for the analysis of rounding

    A [float] operation of the source is the exact operation followed by one
    rounding to nearest.  The definitions below serve the proof that the
    rounded result is within a relative error [u] of the exact one, or
    within [eta] of it below the normal range. *)

Module Rounding.

(** What a shift record knows of the integer [m0] it comes from, after [k]
    shifts: the quotient by [2 ^ k], and how the remainder compares with
    half of [2 ^ k]. *)
Definition shr_inv (m0 k : Z) (mrs : shr_record) : Prop :=
  0 <= shr_m mrs
  /\ exists rem,
       m0 = shr_m mrs * 2 ^ k + rem /\ 0 <= rem < 2 ^ k
       /\ match shr_r mrs, shr_s mrs with
          | false, false => rem = 0
          | false, true => 0 < 2 * rem < 2 ^ k
          | true, false => 2 * rem = 2 ^ k
          | true, true => 2 ^ k < 2 * rem
          end.

Definition pow2 (z : Z) : Q := Qpower 2 z.

(** The unit roundoff of single precision, and half of its smallest
    positive number. *)
Definition u : Q := 1 # 16777216.
Definition eta : Q := pow2 (-150).

(** The rational [z * 2 ^ e]. *)
Definition val (z e : Z) : Q := (inject_Z z * pow2 e)%Q.

(** An exact result of magnitude up to [limit] is rounded to a finite
    number. *)
Definition limit : Q := inject_Z (2 ^ 103).

End Rounding.

(** A conversion is a sequence of operations on the value, each with one
    constant of a transform: [c * x], [x * c], [x + c] or [x - c]. *)

Module Steps.

Import Binary32 Rounding.

Inductive step : Type :=
| times_left (c : float)
| times_right (c : float)
| plus_right (c : float)
| minus_right (c : float).

Definition operand (s : step) : float :=
  match s with
  | times_left c | times_right c | plus_right c | minus_right c => c
  end.

Definition apply_step (s : step) (x : float) : float :=
  match s with
  | times_left c => fmul c x
  | times_right c => fmul x c
  | plus_right c => fadd x c
  | minus_right c => fsub x c
  end.

Definition run (steps : list step) (x : float) : float :=
  fold_left (fun y s => apply_step s y) steps x.

(** An affine map [slope * V + shift] of the input [V], with the distance
    [slope_err * |V| + shift_err] that a computed value keeps to it. *)
Record bound : Type := {
  slope : Q;
  shift : Q;
  slope_err : Q;
  shift_err : Q
}.

Definition within (b : bound) (V x : Q) : Prop :=
  (Qabs (x - (slope b * V + shift b)) <= slope_err b * Qabs V + shift_err b)%Q.

Definition start : bound :=
  {| slope := 1; shift := 0; slope_err := 0; shift_err := 0 |}.

(** The bound after one more operation: the exact operation on the affine
    map, and the rounding error added to the distance. *)
Definition bound_step (s : step) (b : bound) : bound :=
  let C := to_Q (operand s) in
  let grow := (slope_err b + u * (Qabs (slope b) + slope_err b))%Q in
  match s with
  | times_left _ | times_right _ =>
      {| slope := Qred (C * slope b);
         shift := Qred (C * shift b);
         slope_err := Qred (Qabs C * grow);
         shift_err :=
           Qred (Qabs C * (shift_err b + u * (Qabs (shift b) + shift_err b)) + eta) |}
  | plus_right _ =>
      {| slope := slope b;
         shift := Qred (shift b + C);
         slope_err := Qred grow;
         shift_err := Qred (shift_err b + u * (Qabs (shift b + C) + shift_err b) + eta) |}
  | minus_right _ =>
      {| slope := slope b;
         shift := Qred (shift b - C);
         slope_err := Qred grow;
         shift_err := Qred (shift_err b + u * (Qabs (shift b - C) + shift_err b) + eta) |}
  end.

Definition bound_run (steps : list step) (b : bound) : bound :=
  fold_left (fun y s => bound_step s y) steps b.

(** The largest magnitude of a value within [b] of an input of magnitude up
    to [M], and of the exact result of the next operation on it. *)
Definition magnitude (b : bound) (M : Q) : Q :=
  ((Qabs (slope b) + slope_err b) * M + Qabs (shift b) + shift_err b)%Q.

Definition reach (s : step) (b : bound) (M : Q) : Q :=
  match s with
  | times_left c | times_right c => (Qabs (to_Q c) * magnitude b M)%Q
  | plus_right c | minus_right c => (magnitude b M + Qabs (to_Q c))%Q
  end.

(** No operation of the sequence overflows on an input of magnitude up to
    [M]. *)
Fixpoint safe (steps : list step) (b : bound) (M : Q) : bool :=
  match steps with
  | [] => true
  | s :: rest =>
      is_finite (operand s) && Qle_bool 0 (slope_err b)
      && Qle_bool (reach s b M) limit && safe rest (bound_step s b) M
  end.

(** The sequence stays within [rel * |V| + abs] of the map [T * V + D]. *)
Definition meets (steps : list step) (T D rel abs : Q) : bool :=
  let b := bound_run steps start in
  Qle_bool (slope_err b + Qabs (slope b - T)) rel
  && Qle_bool (shift_err b + Qabs (shift b - D)) abs.

End Steps.

(** The operations of [linear::forward] and of [linear::backward]. *)
Definition forward_steps (l : @linear Binary32.float) : list Steps.step :=
  [Steps.times_left (m_factor l); Steps.plus_right (m_offset l)].

Definition backward_steps (l : @linear Binary32.float) : list Steps.step :=
  [Steps.minus_right (m_offset l); Steps.times_right (m_divider l)].

(** Two sequences of operations follow the same scaling, the one that the
    constants of the second multiply to. *)
Definition agree (s1 s2 : list Steps.step) : bool :=
  let T := Steps.slope (Steps.bound_run s2 Steps.start) in
  Steps.meets s1 T 0 ((4 # 10000000) * Qabs T) (tiny / 4)
  && Steps.meets s2 T 0 ((4 # 10000000) * Qabs T) (tiny / 4).

(** ** Definitions for the registry, the handler and the factory *)

(** The units of a group. *)
Definition units (g : metrics) : list metric := primary g :: minors g.

(** The request an entry answers. *)
Definition entry_key (c : metrics_converter) : string * string :=
  (from_signature c, to_signature c).

(** ** The request handler of [main.cpp]

    [HelloHandler::onRequest] reads the method, the resource and the query
    parameters of the request and sends one response.  The HTTP library is
    not part of the repository: the type of methods comes as a parameter
    with its value [Get], and so do [std::stof], which gives no number when
    it throws, and [std::to_string]. *)

Inductive Code : Type := Ok | Not_Implemented.

Inductive Mime : Type := Text_Plain.

Record Response : Type := send { code : Code; body : string; mime : option Mime }.

Record Request (Method : Type) : Type := {
  method : Method;
  resource : string;
  parameters : list (string * string)
}.

Arguments method {Method} _.
Arguments resource {Method} _.
Arguments parameters {Method} _.

(** The double quote character of the JSON text. *)
Definition quote : string := String "034"%char EmptyString.

Section Handler.

Context {F : Type} `{FloatOps F}.
Context {Method : Type} (Get : Method).
Context (Method_eq_dec : forall a b : Method, {a = b} + {a <> b}).
Context (stof : string -> option F) (to_string : F -> string).

(** One turn of the loop over the query parameters. *)
Definition fetch_parameter (acc : string * string * string) (parameter : string * string)
  : string * string * string :=
  let '(from, to, value) := acc in
  let '(key, key_value) := parameter in
  if String.eqb key "from" then (key_value, to, value)
  else if String.eqb key "to" then (from, key_value, value)
  else if String.eqb key "value" then (from, to, key_value)
  else (from, to, value).

Definition fetch_parameters (params : list (string * string)) : string * string * string :=
  fold_left fetch_parameter params (EmptyString, EmptyString, EmptyString).

Definition json_response (result : F) : string :=
  "{" ++ quote ++ "result" ++ quote ++ ":" ++ quote ++ to_string result ++ quote ++ "}".

Definition onRequest (request : Request Method) : exn Response :=
  if (if Method_eq_dec (method request) Get then false else true)
     || negb (String.eqb (resource request) "/convert")
  then ret (send Not_Implemented "Unknown method or command used!" None)
  else
    let '(from, to, value) := fetch_parameters (parameters request) in
    match stof value with
    | None => ret (send Not_Implemented "Invalid value!" None)
    | Some from_value =>
        result <- process from to from_value ;;
        match result with
        | None => ret (send Not_Implemented "Unknown conversion type!" None)
        | Some r => ret (send Ok (json_response r) (Some Text_Plain))
        end
    end.

End Handler.

(** The value a query gives to a key: that of the last parameter with the
    key in iteration order, the empty string without one. *)
Definition last_value (key : string) (params : list (string * string)) : string :=
  match find (fun p => String.eqb (fst p) key) (rev params) with
  | Some p => snd p
  | None => EmptyString
  end.

(** ** The factory's objects

    Each [converter<_primary, _minor>()] has its own [thread_local] object,
    constructed when the call first reaches it; a constructor that throws
    leaves it unconstructed.  The state of a thread is the list of the pairs
    constructed so far, each with its object. *)

Section Factory.

Context {F : Type} `{FloatOps F}.

Definition factory_state : Type :=
  list (metric * metric * @metric_conversion_type F).

Fixpoint constructed (p m : metric) (s : factory_state)
  : option (@metric_conversion_type F) :=
  match s with
  | [] => None
  | (p', m', t) :: s' =>
      if is_same p p' && is_same m m' then Some t else constructed p m s'
  end.

Definition factory_converter (p m : metric) (s : factory_state)
  : exn (@metric_conversion_type F) * factory_state :=
  match constructed p m s with
  | Some conversion => (ret conversion, s)
  | None =>
      match metric_conversion_type_new p m with
      | inr conversion => (ret conversion, (p, m, conversion) :: s)
      | inl e => (inl e, s)
      end
  end.

(** Every object of the state is the one its constructor gives. *)
Definition factory_coherent (s : factory_state) : Prop :=
  forall p m t, constructed p m s = Some t -> metric_conversion_type_new p m = ret t.

End Factory.

(** * Properties *)

(** ** The chain *)

Lemma add_responsibles_rev converters r :
  add_responsibles converters r = rev converters ++ r.
Proof.
  revert r; induction converters as [|c cs IH]; intros r; simpl.
  - reflexivity.
  - rewrite IH, <- app_assoc. reflexivity.
Qed.

(** The chain holds the entries of the three groups, the last one added at
    its head. *)
Lemma instance_entries :
  instance
  = rev (converter_traits weight_metrics ++ converter_traits distance_metrics
         ++ converter_traits temperature_metrics).
Proof.
  unfold instance. cbn [add_responsible_groups].
  rewrite !add_responsibles_rev, !rev_app_distr, app_nil_r, <- app_assoc.
  reflexivity.
Qed.

(** No two entries answer the same request. *)
Lemma instance_keys_NoDup :
  NoDup (map (fun c => (from_signature c, to_signature c)) instance).
Proof.
  vm_compute.
  repeat (constructor; [simpl; intros H; repeat (destruct H as [H | H]; [discriminate H|]); exact H|]).
  constructor.
Qed.

Section Dispatch.

Context {F : Type} `{FloatOps F}.

Lemma responsible_process_find (r : responsible) from to (value : F) :
  responsible_process r from to value =
  match find_responsible r from to with
  | Some c => x <- convert c value ;; ret (Some x)
  | None => ret None
  end.
Proof.
  induction r as [|c r IH]; simpl.
  - reflexivity.
  - destruct (is_reponsible c from to); [reflexivity | exact IH].
Qed.

Lemma process_find from to (value : F) :
  process from to value =
  match find_responsible instance from to with
  | Some c => x <- convert c value ;; ret (Some x)
  | None => ret None
  end.
Proof. unfold process. rewrite <- responsible_process_find. reflexivity. Qed.

Lemma find_responsible_none (r : responsible) from to :
  (forall c, In c r -> ~ (from_signature c = from /\ to_signature c = to)) ->
  find_responsible r from to = None.
Proof.
  induction r as [|c r IH]; intros Hno; simpl.
  - reflexivity.
  - destruct (is_reponsible c from to) eqn:E.
    + exfalso. apply (Hno c (or_introl eq_refl)).
      unfold is_reponsible in E. apply andb_true_iff in E as [E1 E2].
      apply String.eqb_eq in E1, E2. split; assumption.
    + apply IH. intros c' Hin. apply Hno. right. exact Hin.
Qed.

(** ** Requests that no handler answers *)

(** C5. When no conversion entry has the requested pair of signatures,
    [process] returns the absence value: not a number and not an exception.
    That is the case of the cross-group pair ("g", "m") and of the unknown
    signature in ("xx", "g"). *)
Theorem process_no_match :
  (forall from to (value : F),
      (forall c, In c instance -> ~ (from_signature c = from /\ to_signature c = to)) ->
      process from to value = ret None)
  /\ process "g" "m" (fconst 5 1) = ret None
  /\ process "xx" "g" (fconst 5 1) = ret None.
Proof.
  split; [|split].
  - intros from to value Hno.
    rewrite process_find, (find_responsible_none _ _ _ Hno). reflexivity.
  - rewrite process_find. reflexivity.
  - rewrite process_find. reflexivity.
Qed.

(** C3. A request from a minor unit to itself is answered by the identity;
    a request from a primary unit to itself finds no handler, because
    [converter_traits] generates no entry from a primary to itself. *)
Theorem process_same_unit (value : F) :
  process "lb" "lb" value = ret (Some value)
  /\ process "p" "p" value = ret (Some value)
  /\ process "ml" "ml" value = ret (Some value)
  /\ process "v" "v" value = ret (Some value)
  /\ process "f" "f" value = ret (Some value)
  /\ process "k" "k" value = ret (Some value)
  /\ process "g" "g" value = ret None
  /\ process "m" "m" value = ret None
  /\ process "c" "c" value = ret None.
Proof.
  repeat split; rewrite process_find; reflexivity.
Qed.

End Dispatch.

Lemma process_no_match_witness :
  @process _ binary32 "ml" "lb" (fconst 7 1) = ret None.
Proof.
  apply (proj1 (@process_no_match _ binary32)).
  intros c Hin [Hfrom Hto].
  simpl in Hin.
  repeat (destruct Hin as [<- | Hin]; [discriminate Hfrom || discriminate Hto |]).
  exact Hin.
Defined.

(** ** Requests evaluated in single precision and in exact arithmetic *)

Ltac exact_value :=
  vm_compute;
  match goal with
  | |- inr (Some ?a) = inr (Some ?b) =>
      apply (f_equal (fun q : Qc => @inr error _ (Some q))), Qc_is_canon; reflexivity
  end.

(** Rewrites the handler lookup of a concrete request by its value. *)
Ltac eval_find :=
  rewrite process_find;
  match goal with
  | |- context [find_responsible ?r ?a ?b] =>
      let c := eval vm_compute in (find_responsible r a b) in
      change (find_responsible r a b) with c
  end;
  unfold convert; cbn [is_same].

(** The literals of the catalog, as the compiler rounds them. *)
Lemma catalog_literals :
  Binary32.of_decimal 453592 1000 = S754_finite false 14863303 (-15)
  /\ Binary32.of_decimal 163807 10 = S754_finite false 16773837 (-10)
  /\ Binary32.of_decimal 160934 100 = S754_finite false 13183713 (-13)
  /\ Binary32.of_decimal 10668 10 = S754_finite false 8739226 (-13)
  /\ Binary32.of_decimal 27315 100 = S754_finite false 8950579 (-15)
  /\ fdiv (Binary32.of_decimal 9 1) (Binary32.of_decimal 5 1)
     = S754_finite false 15099494 (-23)
  /\ @EPSILON _ binary32 = S754_finite false 14411519 (-57).
Proof. repeat split. Qed.

(** ** Transforms in exact arithmetic *)

Module Exact.

Local Open Scope Qc_scope.

Lemma linear_new_inv (factor offset : Qc) (l : linear) :
  linear_new factor offset = ret l ->
  factor <> 0
  /\ l = {| m_factor := factor; m_divider := 1 / factor; m_offset := offset |}.
Proof.
  unfold linear_new.
  destruct (fltb (fabs factor) EPSILON) eqn:E; [discriminate|].
  intros [= <-]. split; [|reflexivity].
  intros ->. vm_compute in E. discriminate E.
Qed.

Lemma converter_declared :
  Forall (fun pm => exists t, @converter _ exact (fst pm) (snd pm) = ret t)
         declared_pairs.
Proof. repeat constructor; eexists; vm_compute; reflexivity. Qed.

End Exact.

(** C1. On [process("c", "k", 0)] the handler is
    [primary_metrics_converter<celsius, kelvin, false>], which calls
    [backward] of [linear(1.f, 273.15f)]: the result is [(0 - 273.15f) * 1],
    minus 273.15, in single precision and in exact arithmetic alike, and not
    273.15. *)
Theorem process_c_k_zero :
  @process _ binary32 "c" "k" (fconst 0 1)
    = ret (Some (SFopp (Binary32.of_decimal 27315 100)))
  /\ @process _ exact "c" "k" (fconst 0 1) = ret (Some (Q2Qc (-27315 # 100)))
  /\ @process _ binary32 "c" "k" (fconst 0 1)
    <> ret (Some (Binary32.of_decimal 27315 100)).
Proof.
  split; [|split].
  - reflexivity.
  - exact_value.
  - vm_compute. discriminate.
Qed.

(** C2. The two temperature minor-minor requests.  [process("f", "k", 32)]
    is [forward<celsius, fahrenheit>(backward<celsius, kelvin>(32))], which is
    [((32 - 273.15) - 32) / 1.8 = -151.75]; [process("k", "f", 273.15)] is
    [forward<celsius, kelvin>(backward<celsius, fahrenheit>(273.15))], which
    is [1.8 * 273.15 + 32 + 273.15 = 796.82].  The single precision results
    are within [1e-4] of these two numbers. *)
Theorem process_temperature_minors :
  @process _ exact "f" "k" (fconst 32 1) = ret (Some (Q2Qc (-15175 # 100)))
  /\ @process _ exact "k" "f" (fconst 27315 100) = ret (Some (Q2Qc (79682 # 100)))
  /\ (exists r : Binary32.float,
        process "f" "k" (fconst 32 1) = ret (Some r)
        /\ Binary32.is_finite r = true
        /\ (Qabs (Binary32.to_Q r - (-15175 # 100)) <= 1 # 10000)%Q)
  /\ (exists r : Binary32.float,
        process "k" "f" (fconst 27315 100) = ret (Some r)
        /\ Binary32.is_finite r = true
        /\ (Qabs (Binary32.to_Q r - (79682 # 100)) <= 1 # 10000)%Q).
Proof.
  split; [|split; [|split]].
  - exact_value.
  - exact_value.
  - eexists. split; [reflexivity|]. split; [reflexivity|]. vm_compute. discriminate.
  - eexists. split; [reflexivity|]. split; [reflexivity|]. vm_compute. discriminate.
Qed.

(** C4. [process("c", "f", 0)] is exactly 32 and [process("f", "c", 32)] is
    exactly 0 in single precision.  For every value, the handler from "c" to
    "f" computes [9/5 * value + 32] and the handler from "f" to "c" computes
    [(value - 32) * (1 / (9/5))], with the [float] operations of the source;
    in exact arithmetic the second undoes the first. *)
Theorem process_celsius_fahrenheit :
  @process _ binary32 "c" "f" (fconst 0 1) = ret (Some (fconst 32 1))
  /\ @process _ binary32 "f" "c" (fconst 32 1) = ret (Some (fconst 0 1))
  /\ (forall value : Binary32.float,
        process "c" "f" value
        = ret (Some (fadd (fmul (fdiv (fconst 9 1) (fconst 5 1)) value) (fconst 32 1))))
  /\ (forall value : Binary32.float,
        process "f" "c" value
        = ret (Some (fmul (fsub value (fconst 32 1))
                          (fdiv (fconst 1 1) (fdiv (fconst 9 1) (fconst 5 1))))))
  /\ (forall value : Qc,
        process "c" "f" value = ret (Some (Q2Qc (9 # 5) * value + Q2Qc (32 # 1))%Qc)
        /\ process "f" "c" (Q2Qc (9 # 5) * value + Q2Qc (32 # 1))%Qc = ret (Some value)).
Proof.
  split; [|split; [|split; [|split]]];
    try (intros; rewrite process_find; reflexivity).
  intros value.
  assert (Hk : @linear_new _ exact (fdiv (fconst 9 1) (fconst 5 1)) (fconst 32 1)
               = ret {| m_factor := Q2Qc (9 # 5);
                        m_divider := (1 / Q2Qc (9 # 5))%Qc;
                        m_offset := Q2Qc (32 # 1) |}).
  { replace (Q2Qc (9 # 5)) with (@fdiv _ exact (fconst 9 1) (fconst 5 1))
      by (apply Qc_is_canon; reflexivity).
    destruct (@linear_new _ exact (fdiv (fconst 9 1) (fconst 5 1)) (fconst 32 1))
      as [e | l] eqn:Hnew.
    - vm_compute in Hnew. discriminate Hnew.
    - apply Exact.linear_new_inv in Hnew as [_ ->]. reflexivity. }
  split; eval_find; unfold converter; cbn [metric_conversion_type_new];
    rewrite Hk; cbn [bind ret forward backward];
    unfold linear_forward, linear_backward; cbn [m_factor m_divider m_offset];
    unfold ret; do 2 f_equal; cbn [fadd fmul fsub exact].
  field. intros Habs. apply (f_equal this) in Habs. discriminate Habs.
Qed.

(** C6. [process("g", "lb", 1000)] is [1000 * (1 / 453.592f)] in single
    precision, a finite number within [5e-6] of 2.20462 and within [1e-6] of
    the quotient 1000 / 453.592. *)
Theorem process_g_lb_1000 :
  exists r : Binary32.float,
    process "g" "lb" (fconst 1000 1) = ret (Some r)
    /\ r = fmul (fsub (fconst 1000 1) (fconst 0 1))
                (fdiv (fconst 1 1) (fconst 453592 1000))
    /\ Binary32.is_finite r = true
    /\ (Qabs (Binary32.to_Q r - (220462 # 100000)) <= 5 # 1000000)%Q
    /\ (Qabs (Binary32.to_Q r - (1000 / (453592 # 1000))) <= 1 # 1000000)%Q.
Proof.
  eexists. split; [reflexivity|]. split; [reflexivity|]. split; [reflexivity|].
  split; vm_compute; discriminate.
Qed.

(** ** Construction of a transform *)

Module Binary32Facts.

Import Binary32.

Lemma digits2_pos_lower (m : positive) :
  2 ^ (Zpos (digits2_pos m) - 1) <= Zpos m.
Proof.
  induction m as [p IH | p IH |]; simpl digits2_pos.
  - rewrite Pos2Z.inj_succ.
    replace (Z.succ (Zpos (digits2_pos p)) - 1) with (Z.succ (Zpos (digits2_pos p) - 1)) by lia.
    rewrite Z.pow_succ_r by lia. lia.
  - rewrite Pos2Z.inj_succ.
    replace (Z.succ (Zpos (digits2_pos p)) - 1) with (Z.succ (Zpos (digits2_pos p) - 1)) by lia.
    rewrite Z.pow_succ_r by lia. lia.
  - simpl. lia.
Qed.

(** A canonical mantissa above the subnormal range has all its 24 bits. *)
Lemma bounded_normal m e :
  bounded prec emax m e = true -> -149 < e -> 2 ^ 23 <= Zpos m.
Proof.
  unfold bounded, canonical_mantissa, fexp, SpecFloat.emin, prec, emax.
  intros Hb He. apply andb_true_iff in Hb as [Hc _].
  apply Z.eqb_eq in Hc.
  assert (Hd : Zpos (digits2_pos m) = 24) by lia.
  pose proof (digits2_pos_lower m) as Hl. rewrite Hd in Hl. exact Hl.
Qed.

Lemma to_Q_small_exponent m e :
  bounded prec emax m e = true ->
  (to_Q (S754_finite false m e) < 1 # 10000000000)%Q ->
  e <= -57.
Proof.
  intros Hb Hlt.
  destruct (Z_le_gt_dec e (-57)) as [Hle | Hgt]; [exact Hle | exfalso].
  assert (Hm : 2 ^ 23 <= Zpos m) by (apply (bounded_normal m e Hb); lia).
  change (2 ^ 23) with 8388608 in Hm.
  unfold to_Q, Qlt in Hlt.
  destruct e as [| p | p]; cbn [Qnum Qden] in Hlt.
  - lia.
  - lia.
  - assert (Hp : Zpos p <= 56) by lia.
    assert (Hpow : Zpos (2 ^ p) <= 2 ^ 56).
    { rewrite Pos2Z.inj_pow. apply Z.pow_le_mono_r; lia. }
    change (2 ^ 56) with 72057594037927936 in Hpow.
    lia.
Qed.

Lemma Qabs_to_Q s m e :
  (to_Q (S754_finite false m e) <= Qabs (to_Q (S754_finite s m e)))%Q.
Proof.
  destruct s.
  - change (to_Q (S754_finite true m e)) with (- to_Q (S754_finite false m e))%Q.
    apply Qle_trans with (Qabs (to_Q (S754_finite false m e))).
    + apply Qle_Qabs.
    + apply Qle_lteq. right. symmetry. apply Qabs_opp.
  - apply Qle_Qabs.
Qed.

(** [SFltb] on two positive finite numbers. *)
Lemma SFltb_positive m1 e1 m2 e2 :
  SFltb (S754_finite false m1 e1) (S754_finite false m2 e2)
  = match e1 ?= e2 with
    | Lt => true
    | Gt => false
    | Eq => match Pos.compare m1 m2 with Lt => true | _ => false end
    end.
Proof.
  unfold SFltb, SFcompare, Pos.compare.
  destruct (e1 ?= e2); reflexivity.
Qed.

(** The guard of the constructor is taken by every [float] whose magnitude
    is below [1e-10]: the rounded [EPSILON] is not below the decimal. *)
Lemma small_below_EPSILON (x : float) :
  valid_binary prec emax x = true ->
  is_finite x = true ->
  (Qabs (to_Q x) < 1 # 10000000000)%Q ->
  fltb (fabs x) EPSILON = true.
Proof.
  intros Hv Hf Hlt.
  destruct x as [s | s | | s m e]; try discriminate Hf.
  - vm_compute. reflexivity.
  - assert (Hpos : (to_Q (S754_finite false m e) < 1 # 10000000000)%Q).
    { exact (Qle_lt_trans _ _ _ (Qabs_to_Q s m e) Hlt). }
    clear Hlt. change (bounded prec emax m e = true) in Hv.
    pose proof (to_Q_small_exponent m e Hv Hpos) as He.
    change (fltb (fabs (S754_finite s m e)) EPSILON)
      with (SFltb (S754_finite false m e) (@EPSILON _ binary32)).
    destruct catalog_literals as (_ & _ & _ & _ & _ & _ & ->).
    rewrite SFltb_positive.
    destruct (Z.compare_spec e (-57)) as [Heq | Hl | Hg].
    + subst e. unfold to_Q, Qlt in Hpos. cbn [Qnum Qden] in Hpos.
      change (Zpos (2 ^ 57)) with 144115188075855872 in Hpos.
      assert (Hc : (m < 14411519)%positive).
      { destruct (Pos.ltb_spec m 14411519) as [Hc | Hc]; [exact Hc | exfalso].
        assert (Hmul : 14411519 * 10000000000 <= Zpos m * 10000000000).
        { apply Z.mul_le_mono_nonneg_r; [discriminate | exact Hc]. }
        pose proof (Z.le_lt_trans _ _ _ Hmul Hpos) as Habs.
        vm_compute in Habs. discriminate Habs. }
      apply Pos.compare_lt_iff in Hc. rewrite Hc. reflexivity.
    + reflexivity.
    + lia.
Qed.

End Binary32Facts.

(** C7. The constructor of [linear] throws for every [float] factor whose
    magnitude is below [1e-10], whatever the offset: so for 0 and for the
    literal [1e-12f].  Each of the six declared transforms is constructed
    without an exception. *)
Theorem linear_new_too_small :
  (forall factor offset : Binary32.float,
      valid_binary Binary32.prec Binary32.emax factor = true ->
      Binary32.is_finite factor = true ->
      (Qabs (Binary32.to_Q factor) < 1 # 10000000000)%Q ->
      linear_new factor offset = throw "'factor' argument is too small!")
  /\ (forall offset : Binary32.float,
        linear_new (fconst 0 1) offset = throw "'factor' argument is too small!")
  /\ (forall offset : Binary32.float,
        linear_new (fconst 1 1000000000000) offset
        = throw "'factor' argument is too small!")
  /\ Forall (fun pm => exists t, @metric_conversion_type_new _ binary32 (fst pm) (snd pm) = ret t)
            declared_pairs.
Proof.
  split; [|split; [|split]].
  - intros factor offset Hv Hf Hlt. unfold linear_new.
    rewrite (Binary32Facts.small_below_EPSILON factor Hv Hf Hlt). reflexivity.
  - reflexivity.
  - reflexivity.
  - repeat constructor; eexists; reflexivity.
Qed.

Lemma linear_new_too_small_witness :
  @linear_new _ binary32 (S754_finite true 9223372 (-63)) (fconst 32 1)
  = throw "'factor' argument is too small!".
Proof.
  apply (proj1 linear_new_too_small).
  - reflexivity.
  - reflexivity.
  - vm_compute. reflexivity.
Defined.

(** * Rounding

    The error of one [float] operation, and of a sequence of them.  The
    operations are those of the standard library's [SpecFloat]; what is
    proved here is what the statements on every [float] value rest on. *)

(** ** Shifting and rounding a mantissa *)

Module RoundingCore.

Import Binary32 Rounding.

Lemma shr_inv_start (m0 : Z) :
  0 <= m0 -> shr_inv m0 0 (shr_record_of_loc m0 loc_Exact).
Proof.
  intros Hm. split; [exact Hm|]. exists 0. simpl. lia.
Qed.

Lemma shr_1_inv (m0 k : Z) (mrs : shr_record) :
  0 <= k -> shr_inv m0 k mrs -> shr_inv m0 (k + 1) (shr_1 mrs).
Proof.
  intros Hk (Hm & rem & Hm0 & Hrem & Hfl).
  destruct mrs as [m r s]. cbn [shr_m shr_r shr_s] in *.
  replace (k + 1) with (Z.succ k) by lia. unfold shr_inv. rewrite Z.pow_succ_r by exact Hk.
  assert (HP : 0 < 2 ^ k) by (apply Z.pow_pos_nonneg; lia).
  set (P := 2 ^ k) in *. clearbody P.
  destruct m as [| p | p]; [| | lia].
  - cbn [shr_1 shr_m shr_r shr_s]. split; [lia|]. exists rem.
    destruct r, s; cbn [orb]; lia.
  - destruct p as [p | p |]; cbn [shr_1 shr_m shr_r shr_s].
    + split; [lia|]. exists (P + rem). rewrite Pos2Z.inj_xI in Hm0.
      destruct r, s; cbn [orb]; lia.
    + split; [lia|]. exists rem. rewrite Pos2Z.inj_xO in Hm0.
      destruct r, s; cbn [orb]; lia.
    + split; [lia|]. exists (P + rem).
      destruct r, s; cbn [orb]; lia.
Qed.

Lemma iter_pos_shr_inv (m0 : Z) (p : positive) :
  forall k mrs, 0 <= k -> shr_inv m0 k mrs ->
    shr_inv m0 (k + Zpos p) (iter_pos shr_1 p mrs).
Proof.
  induction p as [p IH | p IH |]; intros k mrs Hk Hinv; cbn [iter_pos].
  - replace (k + Zpos p~1) with (k + 1 + Zpos p + Zpos p) by lia.
    apply IH; [lia|]. apply IH; [lia|]. apply shr_1_inv; assumption.
  - replace (k + Zpos p~0) with (k + Zpos p + Zpos p) by lia.
    apply IH; [lia|]. apply IH; assumption.
  - apply shr_1_inv; assumption.
Qed.

Lemma shr_spec (m0 : Z) (mrs : shr_record) (e n : Z) :
  shr_inv m0 0 mrs ->
  snd (shr mrs e n) = e + Z.max 0 n
  /\ shr_inv m0 (Z.max 0 n) (fst (shr mrs e n)).
Proof.
  intros Hinv. destruct n as [| p | p]; cbn [shr fst snd].
  - split; [lia | exact Hinv].
  - replace (Z.max 0 (Zpos p)) with (0 + Zpos p) by lia.
    split; [lia|]. apply iter_pos_shr_inv; [lia | exact Hinv].
  - split; [lia | exact Hinv].
Qed.

(** Rounding to nearest from a shift record: the rounded quotient is within
    half of [2 ^ k] of the integer, and is the quotient or the next one. *)
Lemma round_nearest_even_spec (m0 k : Z) (mrs : shr_record) :
  0 <= k -> shr_inv m0 k mrs ->
  let mr := round_nearest_even (shr_m mrs) (loc_of_shr_record mrs) in
  shr_m mrs <= mr <= shr_m mrs + 1
  /\ shr_m mrs * 2 ^ k <= m0
  /\ 2 * Z.abs (mr * 2 ^ k - m0) <= 2 ^ k
  /\ (k = 0 -> mr = m0).
Proof.
  intros Hk (Hm & rem & Hm0 & Hrem & Hfl).
  destruct mrs as [m r s]. cbn [shr_m shr_r shr_s] in *.
  assert (HP : 0 < 2 ^ k) by (apply Z.pow_pos_nonneg; lia).
  assert (H0 : k = 0 -> 2 ^ k = 1) by (intros ->; reflexivity).
  set (P := 2 ^ k) in *. clearbody P.
  destruct r, s; cbn [loc_of_shr_record round_nearest_even].
  - repeat split; try lia.
  - destruct (Z.even m); repeat split; try lia.
  - repeat split; try lia.
  - repeat split; try lia.
Qed.

Lemma digits2_pos_bounds (m : positive) :
  2 ^ (Zpos (digits2_pos m) - 1) <= Zpos m < 2 ^ Zpos (digits2_pos m).
Proof.
  induction m as [p IH | p IH |]; cbn [digits2_pos].
  - rewrite Pos2Z.inj_succ.
    replace (Z.succ (Zpos (digits2_pos p)) - 1) with (Z.succ (Zpos (digits2_pos p) - 1)) by lia.
    rewrite !Z.pow_succ_r by lia. lia.
  - rewrite Pos2Z.inj_succ.
    replace (Z.succ (Zpos (digits2_pos p)) - 1) with (Z.succ (Zpos (digits2_pos p) - 1)) by lia.
    rewrite !Z.pow_succ_r by lia. lia.
  - simpl. lia.
Qed.

Lemma fexp_eq (x : Z) : fexp prec emax x = Z.max (x - 24) (-149).
Proof. reflexivity. Qed.

End RoundingCore.

Module RoundingAux.

Import Binary32 Rounding RoundingCore.

Lemma digits2_pos_le (p : positive) (n : Z) :
  0 <= n -> Zpos p < 2 ^ n -> Zpos (digits2_pos p) <= n.
Proof.
  intros Hn Hlt. pose proof (digits2_pos_bounds p) as [Hlo _].
  assert (H : 2 ^ (Zpos (digits2_pos p) - 1) < 2 ^ n) by lia.
  apply Z.pow_lt_mono_r_iff in H; lia.
Qed.

(** The second shift of [binary_round_aux] keeps the value: it only happens
    when rounding carried the mantissa to [2 ^ 24]. *)
Lemma second_shift (m1 e' : Z) :
  0 <= m1 <= 2 ^ 24 -> -149 <= e' ->
  exists mf ef,
    shr_m (fst (shr_fexp prec emax m1 e' loc_Exact)) = mf
    /\ snd (shr_fexp prec emax m1 e' loc_Exact) = ef
    /\ mf * 2 ^ (ef - e') = m1 /\ e' <= ef /\ 0 <= mf.
Proof.
  intros Hm He. unfold shr_fexp. rewrite fexp_eq.
  destruct (Z.eq_dec m1 (2 ^ 24)) as [-> | Hne].
  - change (Zdigits2 (2 ^ 24)) with 25.
    replace (Z.max (25 + e' - 24) (-149) - e') with 1 by lia.
    exists (2 ^ 23), (e' + 1). cbn [shr fst snd].
    split; [reflexivity|]. split; [reflexivity|].
    replace (e' + 1 - e') with 1 by lia. split; [reflexivity|]. split; [lia|].
    apply Z.pow_nonneg. lia.
  - assert (Hn : Z.max (Zdigits2 m1 + e' - 24) (-149) - e' <= 0).
    { destruct m1 as [| p | p]; [cbn [Zdigits2]; lia | | lia].
      cbn [Zdigits2].
      assert (Zpos (digits2_pos p) <= 24) by (apply digits2_pos_le; lia).
      lia. }
    exists m1, e'.
    destruct (Z.max (Zdigits2 m1 + e' - 24) (-149) - e') as [| q | q] eqn:En;
      [| lia |]; cbn [shr shr_record_of_loc fst snd shr_m];
      (split; [reflexivity|]); (split; [reflexivity|]);
      rewrite Z.sub_diag; cbn; lia.
Qed.

(** What [binary_round_aux] returns on an exact positive integer: zero, a
    finite number or infinity, with the mantissa [mf] and exponent [ef] of
    the rounded value, within a relative error of [2 ^ -24] of the integer
    or, below the normal range, within half of [2 ^ emin]. *)
Lemma binary_round_aux_spec (s : bool) (m : positive) (e : Z) :
  exists mf ef,
    binary_round_aux prec emax s (Zpos m) e loc_Exact
    = match mf with
      | Z0 => S754_zero s
      | Zpos pf => if ef <=? 104 then S754_finite s pf ef else S754_infinity s
      | Zneg _ => S754_nan
      end
    /\ 0 <= mf /\ e <= ef
    /\ (2 ^ 24 * Z.abs (mf * 2 ^ (ef - e) - Zpos m) <= Zpos m
        \/ (e <= -149 /\ 2 * Z.abs (mf * 2 ^ (ef - e) - Zpos m) <= 2 ^ (-149 - e))).
Proof.
  pose proof (digits2_pos_bounds m) as [Hlo Hhi].
  set (d := Zpos (digits2_pos m)) in *.
  assert (Hd : 1 <= d) by (unfold d; lia).
  set (n1 := fexp prec emax (d + e) - e).
  set (k1 := Z.max 0 n1).
  assert (Hk1 : 0 <= k1) by (unfold k1; lia).
  destruct (shr_spec (Zpos m) (shr_record_of_loc (Zpos m) loc_Exact) e n1
              (shr_inv_start (Zpos m) ltac:(lia))) as [He' Hinv].
  fold k1 in He', Hinv.
  pose proof (round_nearest_even_spec (Zpos m) k1 _ Hk1 Hinv) as Hr.
  cbv zeta in Hr. destruct Hr as (Hm1 & Hfloor & Herr & Hexact).
  destruct Hinv as (Hq0 & _).
  assert (HP : 0 < 2 ^ k1) by (apply Z.pow_pos_nonneg; lia).
  (* the mantissa after rounding and its exponent *)
  assert (Hbounds :
    let m1 := round_nearest_even
                (shr_m (fst (shr (shr_record_of_loc (Zpos m) loc_Exact) e n1)))
                (loc_of_shr_record (fst (shr (shr_record_of_loc (Zpos m) loc_Exact) e n1))) in
    0 <= m1 <= 2 ^ 24 /\ -149 <= e + k1
    /\ (2 ^ 24 * Z.abs (m1 * 2 ^ k1 - Zpos m) <= Zpos m
        \/ (e <= -149 /\ 2 * Z.abs (m1 * 2 ^ k1 - Zpos m) <= 2 ^ (-149 - e)))).
  { cbv zeta.
    set (q := shr_m (fst (shr (shr_record_of_loc (Zpos m) loc_Exact) e n1))) in *.
    set (m1 := round_nearest_even q _) in *. clearbody m1 q.
    assert (HK : k1 = Z.max 0 (Z.max (d + e - 24) (-149) - e)) by reflexivity.
    clearbody k1.
    destruct (Z_le_gt_dec (-149) (d + e - 24)) as [Hnorm | Hsub].
    - (* normal range: k1 = max 0 (d - 24) *)
      assert (Ek : k1 = Z.max 0 (d - 24)) by lia.
      destruct (Z_le_gt_dec d 24) as [Hsmall | Hbig].
      + assert (E0 : k1 = 0) by lia.
        specialize (Hexact E0). subst m1. rewrite E0 in *.
        assert (Zpos m < 2 ^ 24).
        { apply Z.lt_le_trans with (1 := Hhi). apply Z.pow_le_mono_r; lia. }
        change (2 ^ 0) with 1. rewrite Z.mul_1_r, Z.sub_diag. cbn [Z.abs].
        split; [lia|]. split; [lia|]. left. lia.
      + assert (Ekk : k1 = d - 24) by lia.
        assert (Hpow : 2 ^ d = 2 ^ 24 * 2 ^ k1).
        { rewrite <- Z.pow_add_r by lia. f_equal. lia. }
        assert (Hpow1 : 2 ^ (d - 1) = 2 ^ 23 * 2 ^ k1).
        { rewrite <- Z.pow_add_r by lia. f_equal. lia. }
        rewrite Hpow in Hhi. rewrite Hpow1 in Hlo.
        change (2 ^ 24) with 16777216 in *. change (2 ^ 23) with 8388608 in *.
        assert (Hq : q < 16777216) by nia.
        split; [lia|]. split; [lia|]. left. nia.
    - (* below the normal range: k1 = max 0 (-149 - e) *)
      assert (Ek : k1 = Z.max 0 (-149 - e)) by lia.
      destruct (Z_le_gt_dec (-149) e) as [Hsmall | Hbig].
      + assert (E0 : k1 = 0) by lia.
        specialize (Hexact E0). subst m1. rewrite E0 in *.
        assert (Zpos m < 2 ^ 24).
        { apply Z.lt_le_trans with (1 := Hhi). apply Z.pow_le_mono_r; lia. }
        change (2 ^ 0) with 1. rewrite Z.mul_1_r, Z.sub_diag. cbn [Z.abs].
        split; [lia|]. split; [lia|]. left. lia.
      + assert (Ekk : k1 = -149 - e) by lia.
        assert (Hpow : 2 ^ d <= 2 ^ 23 * 2 ^ k1).
        { rewrite <- Z.pow_add_r by lia. apply Z.pow_le_mono_r; lia. }
        change (2 ^ 24) with 16777216 in *. change (2 ^ 23) with 8388608 in *.
        assert (Hq : q < 8388608) by nia.
        split; [lia|]. split; [lia|]. right. rewrite <- Ekk. split; [lia | exact Herr]. }
  cbv zeta in Hbounds. destruct Hbounds as (Hm1b & He'b & Hbound).
  unfold binary_round_aux.
  change (shr_fexp prec emax (Zpos m) e loc_Exact)
    with (shr (shr_record_of_loc (Zpos m) loc_Exact) e n1).
  destruct (shr (shr_record_of_loc (Zpos m) loc_Exact) e n1) as [mrs' e'] eqn:E1.
  cbn [fst snd] in *. subst e'.
  set (m1 := round_nearest_even (shr_m mrs') (loc_of_shr_record mrs')) in *.
  destruct (second_shift m1 (e + k1) Hm1b He'b) as (mf & ef & Hmf & Hef & Hval & Hle & Hnn).
  destruct (shr_fexp prec emax m1 (e + k1) loc_Exact) as [mrs'' e''] eqn:E2.
  cbn [fst snd] in Hmf, Hef. subst e''. rewrite Hmf.
  exists mf, ef.
  split.
  { destruct mf as [| pf | pf]; [reflexivity | reflexivity | lia]. }
  split; [exact Hnn|]. split; [lia|].
  assert (Hv : mf * 2 ^ (ef - e) = m1 * 2 ^ k1).
  { replace (ef - e) with (ef - (e + k1) + k1) by lia.
    rewrite Z.pow_add_r by lia. rewrite Z.mul_assoc, Hval. reflexivity. }
  rewrite Hv. exact Hbound.
Qed.

End RoundingAux.

(** ** The error of one rounding *)

Module RoundingError.

Import Binary32 Rounding RoundingCore RoundingAux.

Lemma pow2_pos (z : Z) : (0 < pow2 z)%Q.
Proof. apply Qpower_0_lt. reflexivity. Qed.

Lemma pow2_add (a b : Z) : (pow2 (a + b) == pow2 a * pow2 b)%Q.
Proof. apply Qpower_plus. discriminate. Qed.

Lemma pow2_inject (k : Z) : 0 <= k -> (inject_Z (2 ^ k) == pow2 k)%Q.
Proof. intros Hk. apply (Zpower_Qpower 2 k Hk). Qed.

(** The value of a finite number, from its signed mantissa. *)
Lemma to_Q_finite (s : bool) (m : positive) (e : Z) :
  (to_Q (S754_finite s m e) == inject_Z (cond_Zopp s (Zpos m)) * pow2 e)%Q.
Proof.
  assert (Hpos : (to_Q (S754_finite false m e) == inject_Z (Zpos m) * pow2 e)%Q).
  { unfold to_Q. destruct e as [| p | p].
    - unfold pow2. cbn. rewrite Qmult_1_r. reflexivity.
    - change (Zpos (m * 2 ^ p) # 1)%Q with (inject_Z (Zpos (m * 2 ^ p))).
      rewrite Pos2Z.inj_mul, Pos2Z.inj_pow, inject_Z_mult.
      rewrite (pow2_inject (Zpos p)) by lia. reflexivity.
    - rewrite Qmake_Qdiv. unfold Qdiv.
      rewrite Pos2Z.inj_pow, (pow2_inject (Zpos p)) by lia.
      unfold pow2. change (Zneg p) with (- Zpos p). rewrite Qpower_opp.
      reflexivity. }
  destruct s.
  - change (to_Q (S754_finite true m e)) with (- to_Q (S754_finite false m e))%Q.
    rewrite Hpos. cbn [cond_Zopp]. rewrite inject_Z_opp. ring.
  - exact Hpos.
Qed.

Lemma to_Q_zero (s : bool) : to_Q (S754_zero s) = 0%Q.
Proof. reflexivity. Qed.

(** The error of [binary_round_aux] on an exact integer. *)
Lemma binary_round_aux_error (s : bool) (m : positive) (e : Z) :
  is_finite (binary_round_aux prec emax s (Zpos m) e loc_Exact) = true ->
  (Qabs (to_Q (binary_round_aux prec emax s (Zpos m) e loc_Exact)
         - inject_Z (cond_Zopp s (Zpos m)) * pow2 e)
   <= u * (inject_Z (Zpos m) * pow2 e) + eta)%Q.
Proof.
  destruct (binary_round_aux_spec s m e) as (mf & ef & Hr & Hmf & Hef & Hbound).
  rewrite Hr. intros Hfin.
  assert (Hval :
    (to_Q match mf with
          | Z0 => S754_zero s
          | Zpos pf => if ef <=? 104 then S754_finite s pf ef else S754_infinity s
          | Zneg _ => S754_nan
          end
     == inject_Z (cond_Zopp s mf) * (inject_Z (2 ^ (ef - e)) * pow2 e))%Q).
  { assert (Hp : (pow2 ef == inject_Z (2 ^ (ef - e)) * pow2 e)%Q).
    { rewrite pow2_inject by lia. rewrite <- pow2_add. f_equiv. lia. }
    destruct mf as [| pf | pf]; [| | lia].
    - rewrite to_Q_zero.
      destruct s; [change (inject_Z (cond_Zopp true 0)) with 0%Q
                  | change (inject_Z (cond_Zopp false 0)) with 0%Q]; ring.
    - destruct (ef <=? 104); [|discriminate Hfin].
      rewrite to_Q_finite, Hp. reflexivity. }
  rewrite Hval. clear Hr Hfin Hval.
  assert (Hsplit : (pow2 (-149 - e) * pow2 e == 2 * eta)%Q).
  { unfold eta. rewrite <- pow2_add.
    replace (-149 - e + e) with (1 + -150) by lia. rewrite pow2_add. reflexivity. }
  pose proof (pow2_pos e) as HP. set (P := pow2 e) in *. clearbody P.
  assert (HK : 0 < 2 ^ (ef - e)) by (apply Z.pow_pos_nonneg; lia).
  assert (Heta : (0 <= eta)%Q) by (apply Qlt_le_weak, pow2_pos).
  set (K := 2 ^ (ef - e)) in *.
  assert (Hdiff :
    (inject_Z (cond_Zopp s mf) * (inject_Z K * P) - inject_Z (cond_Zopp s (Zpos m)) * P
     == inject_Z (cond_Zopp s (mf * K - Zpos m)) * P)%Q).
  { destruct s; cbn [cond_Zopp];
      rewrite ?inject_Z_opp, ?inject_Z_plus, ?inject_Z_mult;
      unfold Z.sub; rewrite ?inject_Z_plus, ?inject_Z_mult, ?inject_Z_opp; ring. }
  rewrite Hdiff, Qabs_Qmult, (Qabs_pos P) by (apply Qlt_le_weak, HP).
  assert (Habs : Qabs (inject_Z (cond_Zopp s (mf * K - Zpos m)))
                 = inject_Z (Z.abs (mf * K - Zpos m))).
  { destruct s; cbn [cond_Zopp]; unfold Qabs, inject_Z; [rewrite Z.abs_opp|]; reflexivity. }
  rewrite Habs. clear Hdiff Habs.
  set (err := Z.abs (mf * K - Zpos m)) in *.
  assert (Herr0 : 0 <= err) by (unfold err; lia).
  destruct Hbound as [Hrel | [He Habs]].
  - (* relative *)
    assert (HQ : (inject_Z (2 ^ 24) * inject_Z err <= inject_Z (Zpos m))%Q).
    { rewrite <- inject_Z_mult, <- Zle_Qle. exact Hrel. }
    change (inject_Z (2 ^ 24)) with (16777216 # 1)%Q in HQ.
    unfold u. set (E := inject_Z err) in *. set (M := inject_Z (Zpos m)) in *.
    nra.
  - (* below the normal range *)
    assert (HQ : (2 * inject_Z err <= pow2 (-149 - e))%Q).
    { rewrite <- (pow2_inject (-149 - e)) by lia.
      change 2%Q with (inject_Z 2). rewrite <- inject_Z_mult, <- Zle_Qle. exact Habs. }
    assert (Hm0 : (0 <= inject_Z (Zpos m))%Q) by (unfold Qle; simpl; lia).
    assert (Hu : (0 <= u * (inject_Z (Zpos m) * P))%Q).
    { apply Qmult_le_0_compat; [discriminate|].
      apply Qmult_le_0_compat; [exact Hm0 | apply Qlt_le_weak, HP]. }
    assert (Hle : (inject_Z err * P <= eta)%Q).
    { assert (H2 : (2 * inject_Z err * P <= pow2 (-149 - e) * P)%Q).
      { apply Qmult_le_compat_r; [exact HQ | apply Qlt_le_weak, HP]. }
      rewrite Hsplit in H2. lra. }
    lra.
Qed.

End RoundingError.

(** ** The error of one operation *)

Module OpError.

Import Binary32 Rounding RoundingError.

Lemma Qabs_val (z e : Z) : (Qabs (val z e) == val (Z.abs z) e)%Q.
Proof.
  unfold val. rewrite Qabs_Qmult, (Qabs_pos (pow2 e)) by (apply Qlt_le_weak, pow2_pos).
  reflexivity.
Qed.

Lemma val_shift (z e k : Z) : 0 <= k -> (val (z * 2 ^ k) e == val z (e + k))%Q.
Proof.
  intros Hk. unfold val. rewrite inject_Z_mult, (pow2_inject k Hk).
  rewrite (Z.add_comm e k), pow2_add. ring.
Qed.

Lemma to_Q_val (s : bool) (m : positive) (e : Z) :
  (to_Q (S754_finite s m e) == val (cond_Zopp s (Zpos m)) e)%Q.
Proof. apply to_Q_finite. Qed.

Lemma eta_nonneg : (0 <= eta)%Q.
Proof. apply Qlt_le_weak, pow2_pos. Qed.

(** An exact result is within every error bound. *)
Lemma exact_within (x y : Q) : (x == y)%Q -> (Qabs (x - y) <= u * Qabs y + eta)%Q.
Proof.
  intros Heq. rewrite Heq.
  setoid_replace (y - y)%Q with 0%Q by ring.
  pose proof (Qabs_nonneg y). pose proof eta_nonneg.
  change (Qabs 0) with 0%Q. unfold u. nra.
Qed.

Lemma round_aux_within (s : bool) (m : positive) (e : Z) (x : Q) :
  (x == val (cond_Zopp s (Zpos m)) e)%Q ->
  is_finite (binary_round_aux prec emax s (Zpos m) e loc_Exact) = true ->
  (Qabs (to_Q (binary_round_aux prec emax s (Zpos m) e loc_Exact) - x)
   <= u * Qabs x + eta)%Q.
Proof.
  intros Hx Hfin. rewrite Hx, Qabs_val.
  assert (Ha : Z.abs (cond_Zopp s (Zpos m)) = Zpos m) by (destruct s; reflexivity).
  rewrite Ha. exact (binary_round_aux_error s m e Hfin).
Qed.

Lemma pos_iter_xO (m d : positive) :
  Zpos (Pos.iter xO m d) = Zpos m * 2 ^ Zpos d.
Proof.
  induction d as [|d IH] using Pos.peano_ind.
  - cbn [Pos.iter]. rewrite Pos2Z.inj_xO. change (2 ^ 1) with 2. lia.
  - rewrite Pos.iter_succ, Pos2Z.inj_xO, IH, Pos2Z.inj_succ, Z.pow_succ_r by lia. lia.
Qed.

(** Aligning a mantissa on a smaller exponent keeps the value. *)
Lemma shl_align_val (m : positive) (e e' : Z) :
  (val (Zpos (fst (shl_align m e e'))) (snd (shl_align m e e')) == val (Zpos m) e)%Q.
Proof.
  unfold shl_align. destruct (e' - e) as [| d | d] eqn:Ed; cbn [fst snd]; try reflexivity.
  rewrite pos_iter_xO, val_shift by lia. unfold val. f_equiv. f_equiv. lia.
Qed.

Lemma shl_align_min (m : positive) (e e' : Z) :
  e' <= e ->
  Zpos (fst (shl_align m e e')) = Zpos m * 2 ^ (e - e').
Proof.
  intros Hle. unfold shl_align. destruct (e' - e) as [| d | d] eqn:Ed; cbn [fst].
  - replace (e - e') with 0 by lia. lia.
  - lia.
  - rewrite pos_iter_xO. f_equal. f_equal. lia.
Qed.

Lemma binary_round_within (s : bool) (m : positive) (e : Z) (x : Q) :
  (x == val (cond_Zopp s (Zpos m)) e)%Q ->
  is_finite (binary_round prec emax s m e) = true ->
  (Qabs (to_Q (binary_round prec emax s m e) - x) <= u * Qabs x + eta)%Q.
Proof.
  intros Hx. unfold binary_round.
  pose proof (shl_align_val m e (fexp prec emax (Zpos (digits2_pos m) + e))) as Hv.
  destruct (shl_align m e (fexp prec emax (Zpos (digits2_pos m) + e))) as [mz ez].
  cbn [fst snd] in Hv. apply round_aux_within.
  rewrite Hx. unfold val in *.
  destruct s; cbn [cond_Zopp]; rewrite ?inject_Z_opp.
  - setoid_replace (- inject_Z (Zpos m) * pow2 e)%Q
      with (- (inject_Z (Zpos m) * pow2 e))%Q by ring.
    rewrite <- Hv. ring.
  - rewrite <- Hv. reflexivity.
Qed.

Lemma binary_normalize_within (z e : Z) (x : Q) :
  (x == val z e)%Q ->
  is_finite (binary_normalize prec emax z e false) = true ->
  (Qabs (to_Q (binary_normalize prec emax z e false) - x) <= u * Qabs x + eta)%Q.
Proof.
  intros Hx. destruct z as [| p | p]; cbn [binary_normalize].
  - intros _. apply exact_within. rewrite Hx. unfold val. cbn. ring.
  - apply binary_round_within. exact Hx.
  - apply binary_round_within. exact Hx.
Qed.

(** ** The three operations of the source *)

Lemma SFmul_within (x y : float) :
  is_finite (SFmul prec emax x y) = true ->
  is_finite x = true /\ is_finite y = true
  /\ (Qabs (to_Q (SFmul prec emax x y) - to_Q x * to_Q y)
      <= u * Qabs (to_Q x * to_Q y) + eta)%Q.
Proof.
  destruct x as [sx | sx | | sx mx ex], y as [sy | sy | | sy my ey];
    cbn [SFmul is_finite]; try discriminate; intros Hfin;
    (split; [reflexivity|]); (split; [reflexivity|]).
  - apply exact_within. rewrite !to_Q_zero. ring.
  - apply exact_within. rewrite !to_Q_zero. ring.
  - apply exact_within. rewrite !to_Q_zero. ring.
  - apply round_aux_within; [|exact Hfin].
    rewrite !to_Q_val. unfold val. rewrite pow2_add.
    assert (Hs : cond_Zopp (xorb sx sy) (Zpos (mx * my))
                 = cond_Zopp sx (Zpos mx) * cond_Zopp sy (Zpos my)).
    { destruct sx, sy; cbn [xorb cond_Zopp]; rewrite Pos2Z.inj_mul; lia. }
    rewrite Hs, inject_Z_mult. ring.
Qed.

Lemma SFadd_within (x y : float) :
  is_finite (SFadd prec emax x y) = true ->
  is_finite x = true /\ is_finite y = true
  /\ (Qabs (to_Q (SFadd prec emax x y) - (to_Q x + to_Q y))
      <= u * Qabs (to_Q x + to_Q y) + eta)%Q.
Proof.
  destruct x as [sx | sx | | sx mx ex], y as [sy | sy | | sy my ey];
    cbn [SFadd is_finite]; try discriminate;
    try (destruct sx, sy; discriminate); intros Hfin;
    (split; [reflexivity|]); (split; [reflexivity|]).
  - apply exact_within. destruct sx, sy; rewrite !to_Q_zero; ring.
  - apply exact_within. rewrite to_Q_zero. ring.
  - apply exact_within. rewrite to_Q_zero. ring.
  - apply binary_normalize_within; [|exact Hfin].
    rewrite !to_Q_val.
    rewrite (shl_align_min mx ex (Z.min ex ey)) by lia.
    rewrite (shl_align_min my ey (Z.min ex ey)) by lia.
    set (ez := Z.min ex ey).
    assert (Hx : (val (cond_Zopp sx (Zpos mx)) ex
                  == val (cond_Zopp sx (Zpos mx * 2 ^ (ex - ez))) ez)%Q).
    { replace (cond_Zopp sx (Zpos mx * 2 ^ (ex - ez)))
        with (cond_Zopp sx (Zpos mx) * 2 ^ (ex - ez)) by (destruct sx; cbn [cond_Zopp]; lia).
      rewrite val_shift by (unfold ez; lia). unfold val. f_equiv. f_equiv. lia. }
    assert (Hy : (val (cond_Zopp sy (Zpos my)) ey
                  == val (cond_Zopp sy (Zpos my * 2 ^ (ey - ez))) ez)%Q).
    { replace (cond_Zopp sy (Zpos my * 2 ^ (ey - ez)))
        with (cond_Zopp sy (Zpos my) * 2 ^ (ey - ez)) by (destruct sy; cbn [cond_Zopp]; lia).
      rewrite val_shift by (unfold ez; lia). unfold val. f_equiv. f_equiv. lia. }
    rewrite Hx, Hy. unfold val. rewrite inject_Z_plus. ring.
Qed.

Lemma SFsub_within (x y : float) :
  is_finite (SFsub prec emax x y) = true ->
  is_finite x = true /\ is_finite y = true
  /\ (Qabs (to_Q (SFsub prec emax x y) - (to_Q x - to_Q y))
      <= u * Qabs (to_Q x - to_Q y) + eta)%Q.
Proof.
  destruct x as [sx | sx | | sx mx ex], y as [sy | sy | | sy my ey];
    cbn [SFsub is_finite]; try discriminate;
    try (destruct sx, sy; discriminate); intros Hfin;
    (split; [reflexivity|]); (split; [reflexivity|]).
  - apply exact_within. destruct sx, sy; rewrite !to_Q_zero; ring.
  - apply exact_within. rewrite to_Q_zero.
    rewrite !to_Q_val. unfold val.
    destruct sy; cbn [negb cond_Zopp]; rewrite ?inject_Z_opp; ring.
  - apply exact_within. rewrite to_Q_zero. ring.
  - apply binary_normalize_within; [|exact Hfin].
    rewrite !to_Q_val.
    rewrite (shl_align_min mx ex (Z.min ex ey)) by lia.
    rewrite (shl_align_min my ey (Z.min ex ey)) by lia.
    set (ez := Z.min ex ey).
    assert (Hx : (val (cond_Zopp sx (Zpos mx)) ex
                  == val (cond_Zopp sx (Zpos mx * 2 ^ (ex - ez))) ez)%Q).
    { replace (cond_Zopp sx (Zpos mx * 2 ^ (ex - ez)))
        with (cond_Zopp sx (Zpos mx) * 2 ^ (ex - ez)) by (destruct sx; cbn [cond_Zopp]; lia).
      rewrite val_shift by (unfold ez; lia). unfold val. f_equiv. f_equiv. lia. }
    assert (Hy : (val (cond_Zopp sy (Zpos my)) ey
                  == val (cond_Zopp sy (Zpos my * 2 ^ (ey - ez))) ez)%Q).
    { replace (cond_Zopp sy (Zpos my * 2 ^ (ey - ez)))
        with (cond_Zopp sy (Zpos my) * 2 ^ (ey - ez)) by (destruct sy; cbn [cond_Zopp]; lia).
      rewrite val_shift by (unfold ez; lia). unfold val. f_equiv. f_equiv. lia. }
    rewrite Hx, Hy. unfold val. 
    set (a := cond_Zopp sx _). set (b := cond_Zopp sy _).
    change (a - b) with (a + - b). rewrite inject_Z_plus, inject_Z_opp. ring.
Qed.

End OpError.

(** ** Operations that do not overflow *)

Module OpFinite.

Import Binary32 Rounding RoundingAux RoundingError OpError.

Lemma pow2_le (a b : Z) : a <= b -> (pow2 a <= pow2 b)%Q.
Proof.
  intros Hab. replace b with (a + (b - a)) by lia.
  rewrite pow2_add, <- (pow2_inject (b - a)) by lia.
  assert (H1 : (1 <= inject_Z (2 ^ (b - a)))%Q).
  { change 1%Q with (inject_Z 1). rewrite <- Zle_Qle.
    assert (0 < 2 ^ (b - a)) by (apply Z.pow_pos_nonneg; lia). lia. }
  pose proof (pow2_pos a). nra.
Qed.

Lemma binary_round_aux_finite (s : bool) (m : positive) (e : Z) :
  (val (Zpos m) e <= limit)%Q ->
  is_finite (binary_round_aux prec emax s (Zpos m) e loc_Exact) = true.
Proof.
  intros Hsmall.
  destruct (binary_round_aux_spec s m e) as (mf & ef & Hr & Hmf & Hef & Hbound).
  rewrite Hr. destruct mf as [| pf | pf]; [reflexivity | | lia].
  destruct (ef <=? 104) eqn:E; [reflexivity|]. exfalso.
  apply Z.leb_gt in E.
  assert (Hp : (pow2 ef == inject_Z (2 ^ (ef - e)) * pow2 e)%Q).
  { rewrite pow2_inject by lia. rewrite <- pow2_add. f_equiv. lia. }
  assert (Hbig : (pow2 105 <= pow2 ef)%Q) by (apply pow2_le; lia).
  assert (H105 : (pow2 105 == 4 * limit)%Q).
  { unfold limit. rewrite <- (pow2_inject 105) by lia.
    change 4%Q with (inject_Z 4). rewrite <- inject_Z_mult. reflexivity. }
  assert (Hlim : (0 < limit)%Q) by reflexivity.
  pose proof (pow2_pos e) as HP.
  unfold val in Hsmall.
  set (K := 2 ^ (ef - e)) in *.
  assert (HK : 0 < K) by (apply Z.pow_pos_nonneg; lia).
  assert (Hpf : (pow2 ef <= inject_Z (Zpos pf * K) * pow2 e)%Q).
  { rewrite Hp. apply Qmult_le_compat_r; [|apply Qlt_le_weak, HP].
    rewrite <- Zle_Qle. nia. }
  destruct Hbound as [Hrel | [He Habs]].
  - assert (Hz : Zpos pf * K <= 2 * Zpos m) by lia.
    assert (Hq : (inject_Z (Zpos pf * K) * pow2 e <= inject_Z (2 * Zpos m) * pow2 e)%Q).
    { apply Qmult_le_compat_r; [|apply Qlt_le_weak, HP]. rewrite <- Zle_Qle. exact Hz. }
    rewrite (inject_Z_mult 2) in Hq. change (inject_Z 2) with 2%Q in Hq.
    set (P := pow2 e) in *. set (M := inject_Z (Zpos m)) in *.
    set (W := inject_Z (Zpos pf * K)) in *. nra.
  - assert (Hz : Zpos pf * K <= Zpos m + 2 ^ (-149 - e)).
    { assert (0 < 2 ^ (-149 - e)) by (apply Z.pow_pos_nonneg; lia). lia. }
    assert (Hq : (inject_Z (Zpos pf * K) * pow2 e
                  <= inject_Z (Zpos m + 2 ^ (-149 - e)) * pow2 e)%Q).
    { apply Qmult_le_compat_r; [|apply Qlt_le_weak, HP]. rewrite <- Zle_Qle. exact Hz. }
    rewrite inject_Z_plus, (pow2_inject (-149 - e)) in Hq by lia.
    assert (Hs : (pow2 (-149 - e) * pow2 e == pow2 (-149))%Q).
    { rewrite <- pow2_add. f_equiv. lia. }
    assert (H149 : (pow2 (-149) <= limit)%Q).
    { apply Qle_trans with (pow2 0); [apply pow2_le; lia | unfold limit; discriminate]. }
    set (P := pow2 e) in *. set (M := inject_Z (Zpos m)) in *.
    set (W := inject_Z (Zpos pf * K)) in *. set (T := pow2 (-149 - e)) in *.
    nra.
Qed.

Lemma round_aux_finite (s : bool) (m : positive) (e : Z) (x : Q) :
  (x == val (cond_Zopp s (Zpos m)) e)%Q -> (Qabs x <= limit)%Q ->
  is_finite (binary_round_aux prec emax s (Zpos m) e loc_Exact) = true.
Proof.
  intros Hx Hsmall. apply binary_round_aux_finite.
  rewrite Hx, Qabs_val in Hsmall.
  replace (Z.abs (cond_Zopp s (Zpos m))) with (Zpos m) in Hsmall
    by (destruct s; reflexivity).
  exact Hsmall.
Qed.

Lemma binary_round_finite (s : bool) (m : positive) (e : Z) (x : Q) :
  (x == val (cond_Zopp s (Zpos m)) e)%Q -> (Qabs x <= limit)%Q ->
  is_finite (binary_round prec emax s m e) = true.
Proof.
  intros Hx Hsmall. unfold binary_round.
  pose proof (shl_align_val m e (fexp prec emax (Zpos (digits2_pos m) + e))) as Hv.
  destruct (shl_align m e (fexp prec emax (Zpos (digits2_pos m) + e))) as [mz ez].
  cbn [fst snd] in Hv. apply (round_aux_finite s mz ez x); [|exact Hsmall].
  rewrite Hx. unfold val in *.
  destruct s; cbn [cond_Zopp]; rewrite ?inject_Z_opp.
  - setoid_replace (- inject_Z (Zpos m) * pow2 e)%Q
      with (- (inject_Z (Zpos m) * pow2 e))%Q by ring.
    rewrite <- Hv. ring.
  - rewrite <- Hv. reflexivity.
Qed.

Lemma binary_normalize_finite (z e : Z) (x : Q) :
  (x == val z e)%Q -> (Qabs x <= limit)%Q ->
  is_finite (binary_normalize prec emax z e false) = true.
Proof.
  intros Hx Hsmall. destruct z as [| p | p]; cbn [binary_normalize].
  - reflexivity.
  - apply (binary_round_finite false p e x); assumption.
  - apply (binary_round_finite true p e x); assumption.
Qed.

Lemma SFmul_finite (x y : float) :
  is_finite x = true -> is_finite y = true ->
  (Qabs (to_Q x * to_Q y) <= limit)%Q ->
  is_finite (SFmul prec emax x y) = true.
Proof.
  destruct x as [sx | sx | | sx mx ex], y as [sy | sy | | sy my ey];
    cbn [SFmul is_finite]; try discriminate; try reflexivity.
  intros _ _ Hsmall.
  apply (round_aux_finite _ _ _ _ (Qeq_refl _)).
  assert (Heq : (val (cond_Zopp (xorb sx sy) (Zpos (mx * my))) (ex + ey)
                 == to_Q (S754_finite sx mx ex) * to_Q (S754_finite sy my ey))%Q).
  { rewrite !to_Q_val. unfold val. rewrite pow2_add.
    assert (Hs : cond_Zopp (xorb sx sy) (Zpos (mx * my))
                 = cond_Zopp sx (Zpos mx) * cond_Zopp sy (Zpos my)).
    { destruct sx, sy; cbn [xorb cond_Zopp]; rewrite Pos2Z.inj_mul; lia. }
    rewrite Hs, inject_Z_mult. ring. }
  rewrite Heq. exact Hsmall.
Qed.

Lemma aligned_val (s : bool) (m : positive) (e ez : Z) :
  ez <= e ->
  (val (cond_Zopp s (Zpos (fst (shl_align m e ez)))) ez
   == val (cond_Zopp s (Zpos m)) e)%Q.
Proof.
  intros Hle. rewrite (shl_align_min m e ez Hle).
  replace (cond_Zopp s (Zpos m * 2 ^ (e - ez)))
    with (cond_Zopp s (Zpos m) * 2 ^ (e - ez)) by (destruct s; cbn [cond_Zopp]; lia).
  rewrite val_shift by lia. unfold val. f_equiv. f_equiv. lia.
Qed.

Lemma val_plus (a b e : Z) : (val (a + b) e == val a e + val b e)%Q.
Proof. unfold val. rewrite inject_Z_plus. ring. Qed.

Lemma val_minus (a b e : Z) : (val (a - b) e == val a e - val b e)%Q.
Proof.
  unfold val. change (a - b) with (a + - b).
  rewrite inject_Z_plus, inject_Z_opp. ring.
Qed.

Lemma SFadd_finite (x y : float) :
  is_finite x = true -> is_finite y = true ->
  (Qabs (to_Q x + to_Q y) <= limit)%Q ->
  is_finite (SFadd prec emax x y) = true.
Proof.
  destruct x as [sx | sx | | sx mx ex], y as [sy | sy | | sy my ey];
    cbn [SFadd is_finite]; try discriminate; try reflexivity;
    try (destruct sx, sy; reflexivity).
  intros _ _ Hsmall.
  apply (binary_normalize_finite _ _ _ (Qeq_refl _)).
  rewrite val_plus, !aligned_val by lia. rewrite <- !to_Q_val. exact Hsmall.
Qed.

Lemma SFsub_finite (x y : float) :
  is_finite x = true -> is_finite y = true ->
  (Qabs (to_Q x - to_Q y) <= limit)%Q ->
  is_finite (SFsub prec emax x y) = true.
Proof.
  destruct x as [sx | sx | | sx mx ex], y as [sy | sy | | sy my ey];
    cbn [SFsub is_finite]; try discriminate; try reflexivity;
    try (destruct sx, sy; reflexivity).
  intros _ _ Hsmall.
  apply (binary_normalize_finite _ _ _ (Qeq_refl _)).
  rewrite val_minus, !aligned_val by lia. rewrite <- !to_Q_val. exact Hsmall.
Qed.

End OpFinite.

(** ** Sequences of operations *)

Module StepFacts.

Import Binary32 Rounding RoundingError OpError OpFinite Steps.

(** ** Arithmetic of the bounds *)

Lemma Qabs_sub_triangle (x y z : Q) : (Qabs (x - z) <= Qabs (x - y) + Qabs (y - z))%Q.
Proof.
  setoid_replace (x - z)%Q with ((x - y) + (y - z))%Q by ring.
  apply Qabs_triangle.
Qed.

Lemma Qabs_le_sum (x y : Q) : (Qabs x <= Qabs (x - y) + Qabs y)%Q.
Proof.
  setoid_replace x with ((x - y) + y)%Q at 1 by ring.
  apply Qabs_triangle.
Qed.

Lemma within_magnitude (b : bound) (V x : Q) :
  within b V x ->
  (Qabs x <= (Qabs (slope b) + slope_err b) * Qabs V + Qabs (shift b) + shift_err b)%Q.
Proof.
  unfold within. intros Hw.
  pose proof (Qabs_le_sum x (slope b * V + shift b)) as H1.
  pose proof (Qabs_triangle (slope b * V) (shift b)) as H2.
  rewrite Qabs_Qmult in H2.
  set (AX := Qabs x) in *. set (AD := Qabs (x - _)) in *.
  set (AI := Qabs (slope b * V + shift b)) in *.
  set (AA := Qabs (slope b)) in *. set (AV := Qabs V) in *.
  set (AB := Qabs (shift b)) in *.
  lra.
Qed.

Lemma u_pos : (0 < u)%Q.
Proof. reflexivity. Qed.

Lemma times_within (b : bound) (V x C y : Q) :
  (Qabs (y - C * x) <= u * Qabs (C * x) + eta)%Q ->
  within b V x ->
  (Qabs (y - (C * slope b * V + C * shift b))
   <= Qabs C * (slope_err b + u * (Qabs (slope b) + slope_err b)) * Qabs V
      + (Qabs C * (shift_err b + u * (Qabs (shift b) + shift_err b)) + eta))%Q.
Proof.
  intros Hy Hw. pose proof (within_magnitude b V x Hw) as Hm.
  unfold within in Hw.
  pose proof (Qabs_sub_triangle y (C * x) (C * slope b * V + C * shift b)) as Ht.
  assert (Hc : (C * x - (C * slope b * V + C * shift b)
                == C * (x - (slope b * V + shift b)))%Q) by ring.
  rewrite Hc, Qabs_Qmult in Ht. rewrite Qabs_Qmult in Hy.
  pose proof (Qabs_nonneg C) as HC. pose proof u_pos as Hu.
  set (AC := Qabs C) in *. set (AX := Qabs x) in *.
  set (AD := Qabs (x - _)) in *. set (AY := Qabs (y - C * x)) in *.
  set (AA := Qabs (slope b)) in *. set (AV := Qabs V) in *.
  set (AB := Qabs (shift b)) in *.
  set (G := Qabs (y - _)) in *.
  set (a := slope_err b) in *. set (c := shift_err b) in *.
  assert (H1 : (AC * AD <= AC * (a * AV + c))%Q) by nra.
  assert (H2 : (AC * AX <= AC * ((AA + a) * AV + AB + c))%Q) by nra.
  assert (H3 : (u * (AC * AX) <= u * (AC * ((AA + a) * AV + AB + c)))%Q).
  { apply Qmult_le_l; [exact Hu | exact H2]. }
  unfold u in *. lra.
Qed.

Lemma plus_within (b : bound) (V x C y : Q) :
  (Qabs (y - (x + C)) <= u * Qabs (x + C) + eta)%Q ->
  within b V x ->
  (Qabs (y - (slope b * V + (shift b + C)))
   <= (slope_err b + u * (Qabs (slope b) + slope_err b)) * Qabs V
      + (shift_err b + u * (Qabs (shift b + C) + shift_err b) + eta))%Q.
Proof.
  intros Hy Hw. unfold within in Hw.
  pose proof (Qabs_sub_triangle y (x + C) (slope b * V + (shift b + C))) as Ht.
  assert (Hc : (x + C - (slope b * V + (shift b + C))
                == x - (slope b * V + shift b))%Q) by ring.
  rewrite Hc in Ht.
  pose proof (Qabs_le_sum (x + C) (slope b * V + (shift b + C))) as H1.
  rewrite Hc in H1.
  pose proof (Qabs_triangle (slope b * V) (shift b + C)) as H2.
  rewrite Qabs_Qmult in H2.
  pose proof u_pos as Hu.
  set (AX := Qabs (x + C)) in *.
  set (AD := Qabs (x - _)) in *. set (AY := Qabs (y - (x + C))) in *.
  set (AA := Qabs (slope b)) in *. set (AV := Qabs V) in *.
  set (AB := Qabs (shift b + C)) in *.
  set (AI := Qabs (slope b * V + (shift b + C))) in *.
  set (G := Qabs (y - _)) in *.
  set (a := slope_err b) in *. set (c := shift_err b) in *.
  assert (H3 : (u * AX <= u * (a * AV + c + (AA * AV + AB)))%Q) by nra.
  nra.
Qed.

(** ** One operation *)

Lemma step_within (s : step) (b : bound) (V : Q) (x : float) :
  is_finite (apply_step s x) = true ->
  is_finite x = true
  /\ (within b V (to_Q x) -> within (bound_step s b) V (to_Q (apply_step s x))).
Proof.
  destruct s as [c | c | c | c]; cbn [apply_step fmul fadd fsub binary32]; intros Hfin.
  - destruct (SFmul_within c x Hfin) as (_ & Hx & Herr).
    split; [exact Hx|]. intros Hw.
    pose proof (times_within b V (to_Q x) (to_Q c) _ Herr Hw) as Hb.
    unfold within, bound_step. cbn [operand slope shift slope_err shift_err].
    rewrite !Qred_correct.
    exact Hb.
  - destruct (SFmul_within x c Hfin) as (Hx & _ & Herr).
    split; [exact Hx|]. intros Hw.
    assert (Herr' : (Qabs (to_Q (SFmul prec emax x c) - to_Q c * to_Q x)
                     <= u * Qabs (to_Q c * to_Q x) + eta)%Q).
    { setoid_replace (to_Q c * to_Q x)%Q with (to_Q x * to_Q c)%Q by ring. exact Herr. }
    pose proof (times_within b V (to_Q x) (to_Q c) _ Herr' Hw) as Hb.
    unfold within, bound_step. cbn [operand slope shift slope_err shift_err].
    rewrite !Qred_correct. exact Hb.
  - destruct (SFadd_within x c Hfin) as (Hx & _ & Herr).
    split; [exact Hx|]. intros Hw.
    pose proof (plus_within b V (to_Q x) (to_Q c) _ Herr Hw) as Hb.
    unfold within, bound_step. cbn [operand slope shift slope_err shift_err].
    rewrite !Qred_correct. exact Hb.
  - destruct (SFsub_within x c Hfin) as (Hx & _ & Herr).
    split; [exact Hx|]. intros Hw.
    assert (Herr' : (Qabs (to_Q (SFsub prec emax x c) - (to_Q x + - to_Q c))
                     <= u * Qabs (to_Q x + - to_Q c) + eta)%Q) by exact Herr.
    pose proof (plus_within b V (to_Q x) (- to_Q c) _ Herr' Hw) as Hb.
    unfold within, bound_step. cbn [operand slope shift slope_err shift_err].
    rewrite !Qred_correct. exact Hb.
Qed.

Lemma step_finite (s : step) (b : bound) (V M : Q) (x : float) :
  is_finite x = true -> within b V (to_Q x) -> (Qabs V <= M)%Q ->
  is_finite (operand s) = true -> (0 <= slope_err b)%Q ->
  (reach s b M <= limit)%Q ->
  is_finite (apply_step s x) = true.
Proof.
  intros Hx Hw HV Hc Ha Hr.
  pose proof (within_magnitude b V (to_Q x) Hw) as Hm.
  assert (Hmag : (Qabs (to_Q x) <= magnitude b M)%Q).
  { unfold magnitude. pose proof (Qabs_nonneg (slope b)).
    set (AA := Qabs (slope b)) in *. set (AV := Qabs V) in *.
    set (AX := Qabs (to_Q x)) in *. set (AB := Qabs (shift b)) in *.
    set (a := slope_err b) in *.
    assert ((AA + a) * AV <= (AA + a) * M)%Q by nra. lra. }
  clear Hm.
  destruct s as [c | c | c | c];
    cbn [apply_step fmul fadd fsub binary32 operand reach] in *.
  - apply SFmul_finite; [exact Hc | exact Hx |].
    rewrite Qabs_Qmult. pose proof (Qabs_nonneg (to_Q c)).
    set (AC := Qabs (to_Q c)) in *. set (AX := Qabs (to_Q x)) in *.
    set (G := magnitude b M) in *. nra.
  - apply SFmul_finite; [exact Hx | exact Hc |].
    rewrite Qabs_Qmult. pose proof (Qabs_nonneg (to_Q c)).
    set (AC := Qabs (to_Q c)) in *. set (AX := Qabs (to_Q x)) in *.
    set (G := magnitude b M) in *. nra.
  - apply SFadd_finite; [exact Hx | exact Hc |].
    pose proof (Qabs_triangle (to_Q x) (to_Q c)). lra.
  - apply SFsub_finite; [exact Hx | exact Hc |].
    pose proof (Qabs_triangle (to_Q x) (- to_Q c)) as Ht.
    rewrite Qabs_opp in Ht. unfold Qminus. lra.
Qed.

(** ** A sequence of operations *)

Lemma run_app (s1 s2 : list step) (x : float) :
  run (s1 ++ s2) x = run s2 (run s1 x).
Proof. apply fold_left_app. Qed.

Lemma within_start (V : Q) : within start V V.
Proof.
  unfold within, start. cbn [slope shift slope_err shift_err].
  setoid_replace (V - (1 * V + 0))%Q with 0%Q by ring.
  change (Qabs 0) with 0%Q. pose proof (Qabs_nonneg V). lra.
Qed.

Lemma run_within (steps : list step) :
  forall (b : bound) (V : Q) (x : float),
    is_finite (run steps x) = true ->
    is_finite x = true
    /\ (within b V (to_Q x) -> within (bound_run steps b) V (to_Q (run steps x))).
Proof.
  induction steps as [|s rest IH]; intros b V x Hfin.
  - split; [exact Hfin | intros Hw; exact Hw].
  - cbn [run bound_run fold_left] in *.
    destruct (IH (bound_step s b) V (apply_step s x) Hfin) as [Hs Hrest].
    destruct (step_within s b V x Hs) as [Hx Hstep].
    split; [exact Hx|]. intros Hw. apply Hrest, Hstep, Hw.
Qed.

Lemma run_finite (steps : list step) :
  forall (b : bound) (V M : Q) (x : float),
    is_finite x = true -> within b V (to_Q x) -> (Qabs V <= M)%Q ->
    safe steps b M = true ->
    is_finite (run steps x) = true.
Proof.
  induction steps as [|s rest IH]; intros b V M x Hx Hw HV Hsafe.
  - exact Hx.
  - cbn [safe] in Hsafe.
    apply andb_true_iff in Hsafe as [Hsafe Hrest].
    apply andb_true_iff in Hsafe as [Hsafe Hreach].
    apply andb_true_iff in Hsafe as [Hc Ha].
    apply Qle_bool_iff in Ha, Hreach.
    assert (Hs : is_finite (apply_step s x) = true)
      by (apply (step_finite s b V M x); assumption).
    cbn [run fold_left].
    apply (IH (bound_step s b) V M (apply_step s x)); try assumption.
    apply (step_within s b V x Hs), Hw.
Qed.

Lemma run_meets (steps : list step) (T D rel abs : Q) (x : float) :
  meets steps T D rel abs = true ->
  is_finite (run steps x) = true ->
  is_finite x = true
  /\ (Qabs (to_Q (run steps x) - (T * to_Q x + D)) <= rel * Qabs (to_Q x) + abs)%Q.
Proof.
  unfold meets. intros Hm Hfin.
  apply andb_true_iff in Hm as [Hrel Habs]. apply Qle_bool_iff in Hrel, Habs.
  destruct (run_within steps start (to_Q x) x Hfin) as [Hx Hw].
  split; [exact Hx|].
  specialize (Hw (within_start _)). unfold within in Hw.
  set (b := bound_run steps start) in *. set (V := to_Q x) in *.
  set (y := to_Q (run steps x)) in *.
  pose proof (Qabs_sub_triangle y (slope b * V + shift b) (T * V + D)) as Ht.
  assert (Hc : (slope b * V + shift b - (T * V + D)
                == (slope b - T) * V + (shift b - D))%Q) by ring.
  rewrite Hc in Ht.
  pose proof (Qabs_triangle ((slope b - T) * V) (shift b - D)) as H2.
  rewrite Qabs_Qmult in H2.
  pose proof (Qabs_nonneg V).
  set (AV := Qabs V) in *. set (AS := Qabs (slope b - T)) in *.
  set (AD := Qabs (shift b - D)) in *.
  set (G := Qabs (y - (T * V + D))) in *.
  set (G1 := Qabs (y - _)) in *.
  set (G2 := Qabs (_ + _)) in *.
  assert (((slope_err b + AS) * AV <= rel * AV)%Q) by nra.
  nra.
Qed.

Lemma run_safe (steps : list step) (M : Q) (x : float) :
  safe steps start M = true ->
  is_finite x = true -> (Qabs (to_Q x) <= M)%Q ->
  is_finite (run steps x) = true.
Proof.
  intros Hsafe Hx HV.
  apply (run_finite steps start (to_Q x) M x Hx (within_start _) HV Hsafe).
Qed.

End StepFacts.

(** ** Conversions as sequences of operations *)

Module Conversions.

Import Rounding StepFacts Steps.

Lemma linear_forward_run (l : linear) (v : Binary32.float) :
  linear_forward l v = run (forward_steps l) v.
Proof. reflexivity. Qed.

Lemma linear_backward_run (l : linear) (v : Binary32.float) :
  linear_backward l v = run (backward_steps l) v.
Proof. reflexivity. Qed.

(** The constructor on a factor that passes the guard. *)
Lemma linear_new_binary32 (factor offset : Binary32.float) :
  fltb (fabs factor) EPSILON = false ->
  linear_new factor offset
  = ret {| m_factor := factor;
           m_divider := fdiv (fconst 1 1) factor;
           m_offset := offset |}.
Proof. unfold linear_new. intros ->. reflexivity. Qed.

(** A sequence of operations that follows the identity. *)
Lemma run_identity (steps : list step) (rel abs : Q) (x : Binary32.float) :
  meets steps 1 0 rel abs = true ->
  safe steps start range = true ->
  (Binary32.is_finite (run steps x) = true ->
   Binary32.is_finite x = true
   /\ near rel abs (Binary32.to_Q (run steps x)) (Binary32.to_Q x))
  /\ (Binary32.is_finite x = true -> (Qabs (Binary32.to_Q x) <= range)%Q ->
      Binary32.is_finite (run steps x) = true).
Proof.
  intros Hm Hs. split.
  - intros Hfin. destruct (run_meets steps 1 0 rel abs x Hm Hfin) as [Hx Hb].
    split; [exact Hx|]. unfold near.
    setoid_replace (Binary32.to_Q x) with (1 * Binary32.to_Q x + 0)%Q at 1 by ring.
    exact Hb.
  - intros Hx Hr. exact (run_safe steps range x Hs Hx Hr).
Qed.

(** A sequence of operations that follows the scaling by [T]. *)
Lemma run_scaling (steps : list step) (T rel abs : Q) (x : Binary32.float) (e : Q) :
  meets steps T 0 (rel * Qabs T) abs = true ->
  safe steps start range = true ->
  (e == T * Binary32.to_Q x)%Q ->
  (Binary32.is_finite (run steps x) = true ->
   Binary32.is_finite x = true
   /\ near rel abs (Binary32.to_Q (run steps x)) e)
  /\ (Binary32.is_finite x = true -> (Qabs (Binary32.to_Q x) <= range)%Q ->
      Binary32.is_finite (run steps x) = true).
Proof.
  intros Hm Hs He. split.
  - intros Hfin. destruct (run_meets steps T 0 (rel * Qabs T) abs x Hm Hfin) as [Hx Hb].
    split; [exact Hx|]. unfold near. rewrite He, Qabs_Qmult.
    setoid_replace (T * Binary32.to_Q x)%Q with (T * Binary32.to_Q x + 0)%Q at 1 by ring.
    rewrite Qmult_assoc. exact Hb.
  - intros Hx Hr. exact (run_safe steps range x Hs Hx Hr).
Qed.

(** Two numbers near the same one are near each other. *)
Lemma near_both (x y I e b : Q) :
  (Qabs (x - I) <= e * Qabs I + b)%Q ->
  (Qabs (y - I) <= e * Qabs I + b)%Q ->
  (0 <= e)%Q -> (0 <= b)%Q -> (e <= 4 # 10000000)%Q -> (4 * b <= tiny)%Q ->
  near (1 # 1000000) tiny x y.
Proof.
  intros Hx Hy He Hb He' Hb'. unfold near.
  pose proof (Qabs_sub_triangle x I y) as Ht.
  assert (Hs : (Qabs (I - y) == Qabs (y - I))%Q).
  { setoid_replace (I - y)%Q with (- (y - I))%Q by ring. apply Qabs_opp. }
  rewrite Hs in Ht.
  pose proof (Qabs_le_sum I (I - y)) as Hi.
  setoid_replace (I - (I - y))%Q with y in Hi by ring. rewrite Hs in Hi.
  pose proof (Qabs_nonneg I) as HI. pose proof (Qabs_nonneg y) as HY.
  set (AX := Qabs (x - I)) in *. set (AY := Qabs (y - I)) in *.
  set (AI := Qabs I) in *. set (Ay := Qabs y) in *. set (G := Qabs (x - y)) in *.
  assert (H1 : (e * AI <= (4 # 10000000) * AI)%Q) by nra.
  unfold tiny in *. lra.
Qed.

Lemma run_agree (s1 s2 : list step) (x : Binary32.float) :
  agree s1 s2 = true ->
  safe s1 start range = true -> safe s2 start range = true ->
  (Binary32.is_finite (run s1 x) = true -> Binary32.is_finite (run s2 x) = true ->
   near (1 # 1000000) tiny (Binary32.to_Q (run s1 x)) (Binary32.to_Q (run s2 x)))
  /\ (Binary32.is_finite x = true -> (Qabs (Binary32.to_Q x) <= range)%Q ->
      Binary32.is_finite (run s1 x) = true /\ Binary32.is_finite (run s2 x) = true).
Proof.
  unfold agree. intros Ha Hs1 Hs2. apply andb_true_iff in Ha as [Ha1 Ha2].
  set (T := slope (bound_run s2 start)) in *. split.
  - intros Hf1 Hf2.
    destruct (run_meets s1 T 0 _ _ x Ha1 Hf1) as [_ H1].
    destruct (run_meets s2 T 0 _ _ x Ha2 Hf2) as [_ H2].
    rewrite <- Qmult_assoc, <- Qabs_Qmult in H1, H2.
    assert (Hz : (T * Binary32.to_Q x + 0 == T * Binary32.to_Q x)%Q) by ring.
    rewrite Hz in H1, H2.
    apply (near_both _ _ (T * Binary32.to_Q x) (4 # 10000000) (tiny / 4) H1 H2);
      vm_compute; discriminate.
  - intros Hx Hr. split; [exact (run_safe s1 range x Hs1 Hx Hr)
                         | exact (run_safe s2 range x Hs2 Hx Hr)].
Qed.

End Conversions.

(** Names the transforms that a goal constructs. *)
Ltac construct :=
  unfold converter; cbn [metric_conversion_type_new];
  rewrite !Conversions.linear_new_binary32 by (vm_compute; reflexivity);
  cbn [bind ret forward backward inherit].

(** Reads the calls of [forward] and [backward] as one sequence of
    operations. *)
Ltac as_run :=
  rewrite ?Conversions.linear_forward_run, ?Conversions.linear_backward_run,
          <- ?StepFacts.run_app.

(** The answer of a concrete request, as a sequence of operations on the
    value. *)
Ltac request := eval_find; construct; as_run; reflexivity.

(** ** Round trips *)

(** C8. In single precision, for each declared pair the transform exists,
    and for every [float] value [v]: when [backward(forward(v))] is finite,
    [v] is finite and the round trip is within [1e-6 * |v| + slack] of [v],
    where [slack] is [1e-4] for the two temperature pairs and [1e-40] for
    the weight and distance pairs; likewise for [forward(backward(v))]; and
    both round trips are finite when [v] is finite of magnitude at most
    [1e24]. *)
Theorem transform_round_trip_law (p m : metric) (v : Binary32.float) :
  In (p, m) declared_pairs ->
  exists t : metric_conversion_type,
    converter p m = ret t
    /\ (Binary32.is_finite (backward t (forward t v)) = true ->
        Binary32.is_finite v = true
        /\ near (1 # 1000000) (slack m)
             (Binary32.to_Q (backward t (forward t v))) (Binary32.to_Q v))
    /\ (Binary32.is_finite (forward t (backward t v)) = true ->
        Binary32.is_finite v = true
        /\ near (1 # 1000000) (slack m)
             (Binary32.to_Q (forward t (backward t v))) (Binary32.to_Q v))
    /\ (Binary32.is_finite v = true -> (Qabs (Binary32.to_Q v) <= range)%Q ->
        Binary32.is_finite (backward t (forward t v)) = true
        /\ Binary32.is_finite (forward t (backward t v)) = true).
Proof.
  intros Hin. simpl in Hin.
  repeat (destruct Hin as [[= <- <-] | Hin];
    [ construct; eexists; split; [reflexivity|];
      cbn [forward backward inherit]; as_run;
      match goal with
      | |- (Binary32.is_finite (Steps.run ?s1 v) = true -> _ /\ near ?rel ?abs _ _)
           /\ (Binary32.is_finite (Steps.run ?s2 v) = true -> _) /\ _ =>
          destruct (Conversions.run_identity s1 rel abs v
                      ltac:(vm_compute; reflexivity)
                      ltac:(vm_compute; reflexivity)) as [H1a H1b];
          destruct (Conversions.run_identity s2 rel abs v
                      ltac:(vm_compute; reflexivity)
                      ltac:(vm_compute; reflexivity)) as [H2a H2b];
          split; [exact H1a | split; [exact H2a |]];
          intros Hv Hr; split; [exact (H1b Hv Hr) | exact (H2b Hv Hr)]
      end |]).
  destruct Hin.
Qed.

(** The round trip through the transform of (gramm, pood) overflows on the
    finite value [1e35f]: [forward] multiplies it by 16380.7. *)
Lemma transform_round_trip_overflow :
  exists t : metric_conversion_type,
    @converter _ binary32 gramm pood = ret t
    /\ Binary32.is_finite (fconst (10 ^ 35) 1) = true
    /\ backward t (forward t (fconst (10 ^ 35) 1)) = S754_infinity false.
Proof. eexists. split; [reflexivity|]. split; vm_compute; reflexivity. Qed.

Lemma transform_round_trip_law_witness :
  exists t : metric_conversion_type,
    converter celsius kelvin = ret t
    /\ Binary32.is_finite (backward t (forward t (fconst 300 1))) = true
    /\ near (1 # 1000000) (1 # 10000)
         (Binary32.to_Q (backward t (forward t (fconst 300 1))))
         (Binary32.to_Q (fconst 300 1)).
Proof.
  destruct (transform_round_trip_law celsius kelvin (fconst 300 1))
    as (t & Ht & Hbf & _ & Hfin).
  - simpl. tauto.
  - destruct Hfin as [H1 _]; [reflexivity | vm_compute; discriminate |].
    exists t. split; [exact Ht|]. split; [exact H1|]. apply Hbf, H1.
Defined.

(** ** Conversions between two minors *)

(** C9. In single precision, for two distinct minors [m1], [m2] of one group
    and every [float] value [v]: the request from [m1] to [m2] is answered
    with some [w] and the request from [m2] to [m1] on [w] with some [r];
    when [r] is finite, [v] is finite and [r] is within
    [1e-6 * |v| + 2 * slack] of [v], where [slack] is [1e-4] for the
    temperature minors and [1e-40] for the others; and [r] is finite when
    [v] is finite of magnitude at most [1e24]. *)
Theorem minors_mutually_inverse (m1 m2 : metric) (v : Binary32.float) :
  In (m1, m2) minor_pairs ->
  exists w r : Binary32.float,
    process (signature m1) (signature m2) v = ret (Some w)
    /\ process (signature m2) (signature m1) w = ret (Some r)
    /\ (Binary32.is_finite r = true ->
        Binary32.is_finite v = true
        /\ near (1 # 1000000) (2 * slack m1) (Binary32.to_Q r) (Binary32.to_Q v))
    /\ (Binary32.is_finite v = true -> (Qabs (Binary32.to_Q v) <= range)%Q ->
        Binary32.is_finite r = true).
Proof.
  intros Hin. simpl in Hin.
  repeat (destruct Hin as [[= <- <-] | Hin];
    [ cbn [signature]; do 2 eexists;
      split; [request|]; split; [request|];
      apply Conversions.run_identity; vm_compute; reflexivity |]).
  destruct Hin.
Qed.

(** From the finite value [1e38f] the request from "p" to "lb" overflows,
    and the request back returns the infinity it is given. *)
Lemma minors_round_trip_overflow :
  Binary32.is_finite (fconst (10 ^ 38) 1) = true
  /\ process "p" "lb" (fconst (10 ^ 38) 1) = ret (Some (S754_infinity false))
  /\ process "lb" "p" (S754_infinity false) = ret (Some (S754_infinity false)).
Proof. split; [|split]; vm_compute; reflexivity. Qed.

Lemma minors_mutually_inverse_witness :
  exists w r : Binary32.float,
    process "f" "k" (fconst 32 1) = ret (Some w)
    /\ process "k" "f" w = ret (Some r)
    /\ Binary32.is_finite r = true
    /\ near (1 # 1000000) (2 * slack fahrenheit)
         (Binary32.to_Q r) (Binary32.to_Q (fconst 32 1)).
Proof.
  destruct (minors_mutually_inverse fahrenheit kelvin (fconst 32 1))
    as (w & r & Hw & Hr & Hnear & Hfin).
  - simpl. tauto.
  - exists w, r. split; [exact Hw|]. split; [exact Hr|].
    assert (Hf : Binary32.is_finite r = true)
      by (apply Hfin; [reflexivity | vm_compute; discriminate]).
    split; [exact Hf|]. apply Hnear, Hf.
Defined.

(** ** Minors of the groups without offset *)

(** C10. In single precision, in the weight and distance groups, for two
    distinct minors [first] and [second] and every [float] value [v]: both
    transforms have offset [+0], and the request from [second] to [first] is
    answered with some [r]; when [r] is finite, [v] is finite and [r] is
    within [1e-6 * |x| + 1e-40] of
    [x = v * factor(primary, second) / factor(primary, first)], the factors
    being the [float] fields of the two transforms; and [r] is finite when
    [v] is finite of magnitude at most [1e24]. *)
Theorem minor_ratio_conversion
    (g : metrics) (first second : metric) (v : Binary32.float) :
  In g [weight_metrics; distance_metrics] ->
  In first (minors g) -> In second (minors g) -> first <> second ->
  exists (t1 t2 : metric_conversion_type) (r : Binary32.float),
    converter (primary g) first = ret t1
    /\ converter (primary g) second = ret t2
    /\ m_offset (base t1) = fconst 0 1
    /\ m_offset (base t2) = fconst 0 1
    /\ process (signature second) (signature first) v = ret (Some r)
    /\ (Binary32.is_finite r = true ->
        Binary32.is_finite v = true
        /\ near (1 # 1000000) tiny (Binary32.to_Q r)
             (Binary32.to_Q v * Binary32.to_Q (m_factor (base t2))
              / Binary32.to_Q (m_factor (base t1))))
    /\ (Binary32.is_finite v = true -> (Qabs (Binary32.to_Q v) <= range)%Q ->
        Binary32.is_finite r = true).
Proof.
  intros Hg H1 H2 Hne. simpl in Hg.
  destruct Hg as [<- | [<- | []]]; simpl in H1, H2;
    destruct H1 as [<- | [<- | []]]; destruct H2 as [<- | [<- | []]];
    try (exfalso; apply Hne; reflexivity);
    cbn [primary weight_metrics distance_metrics signature];
    do 3 eexists;
    (split; [construct; reflexivity|]); (split; [construct; reflexivity|]);
    (split; [reflexivity|]); (split; [reflexivity|]);
    (split; [request|]);
    match goal with
    | |- (_ -> _ /\ near _ _ _ (_ * ?N / ?D)%Q) /\ _ =>
        apply (Conversions.run_scaling _ (N / D));
        [vm_compute; reflexivity | vm_compute; reflexivity | unfold Qdiv; ring]
    end.
Qed.

(** On the finite value [714 * 2 ^ -149], below the normal range, the
    request from "p" to "lb" is answered with [32761 * 2 ^ -149], more than a
    quarter above the value times the ratio of the two factors: the quotient
    by the factor of lb is rounded to [2 * 2 ^ -149] first. *)
Lemma minor_ratio_underflow :
  exists t1 t2 : metric_conversion_type,
    @converter _ binary32 gramm lb = ret t1
    /\ converter gramm pood = ret t2
    /\ process "p" "lb" (S754_finite false 714 (-149))
       = ret (Some (S754_finite false 32761 (-149)))
    /\ ((5 # 4) * (Binary32.to_Q (S754_finite false 714 (-149))
                   * Binary32.to_Q (m_factor (base t2))
                   / Binary32.to_Q (m_factor (base t1)))
        < Binary32.to_Q (S754_finite false 32761 (-149)))%Q.
Proof.
  do 2 eexists. split; [reflexivity|]. split; [reflexivity|].
  split; vm_compute; reflexivity.
Qed.

Lemma minor_ratio_conversion_witness :
  exists r : Binary32.float,
    process "p" "lb" (fconst 3 1) = ret (Some r)
    /\ Binary32.is_finite r = true
    /\ near (1 # 1000000) tiny (Binary32.to_Q r)
         (Binary32.to_Q (fconst 3 1) * Binary32.to_Q (fconst 163807 10)
          / Binary32.to_Q (fconst 453592 1000)).
Proof.
  destruct (minor_ratio_conversion weight_metrics lb pood (fconst 3 1))
    as (t1 & t2 & r & E1 & E2 & _ & _ & Hr & Hnear & Hfin).
  - simpl. tauto.
  - simpl. tauto.
  - simpl. tauto.
  - discriminate.
  - injection E1 as <-. injection E2 as <-.
    exists r. split; [exact Hr|].
    assert (Hf : Binary32.is_finite r = true)
      by (apply Hfin; [reflexivity | vm_compute; discriminate]).
    split; [exact Hf|]. apply Hnear, Hf.
Defined.

(** * Further properties of the code *)

(** ** The entries a group generates *)

Lemma length_minor_conversions (p : metric) (l l' : list metric) :
  length (concat (map (fun m => combined p m l) l')) = (length l' * length l)%nat.
Proof.
  induction l' as [|m l' IH]; simpl.
  - reflexivity.
  - rewrite length_app, IH. unfold combined. rewrite length_map. reflexivity.
Qed.

(** X1. A group with [n] minors generates [2 * n + n * n] entries: [n] from
    a minor to the primary, [n] from the primary to a minor, and one for
    each ordered pair of minors, a minor with itself included. *)
Theorem converter_traits_length (g : metrics) :
  length (converter_traits g)
  = (2 * length (minors g) + length (minors g) * length (minors g))%nat.
Proof.
  unfold converter_traits, primary_minor_conversions, minor_primary_conversions,
    minor_conversions.
  rewrite !length_app, !length_map, length_minor_conversions. lia.
Qed.

Lemma In_converter_traits (g : metrics) (c : metrics_converter) :
  In c (converter_traits g) <->
  (exists m d, In m (minors g) /\ c = primary_metrics_converter (primary g) m d)
  \/ (exists first second, In first (minors g) /\ In second (minors g)
        /\ c = minor_metrics_converter (primary g) first second).
Proof.
  unfold converter_traits, primary_minor_conversions, minor_primary_conversions,
    minor_conversions, combined.
  rewrite !in_app_iff, !in_map_iff, in_concat.
  split.
  - intros [(m & <- & Hm) | [(m & <- & Hm) | (l & Hl & Hc)]].
    + left. exists m, true. auto.
    + left. exists m, false. auto.
    + apply in_map_iff in Hl as (first & <- & Hfirst).
      apply in_map_iff in Hc as (second & <- & Hsecond).
      right. exists first, second. auto.
  - intros [(m & d & Hm & ->) | (first & second & Hf & Hs & ->)].
    + destruct d; [left | right; left]; exists m; auto.
    + right; right. eexists. split.
      * apply in_map_iff. exists first. split; [reflexivity | exact Hf].
      * apply in_map_iff. exists second. auto.
Qed.

(** X2. The requests the entries of a group answer are the ordered pairs of
    signatures of two units of the group of which at least one is a minor:
    every such pair has an entry, and no entry answers anything else. *)
Theorem converter_traits_requests (g : metrics) (from to : string) :
  (exists c, In c (converter_traits g) /\ entry_key c = (from, to)) <->
  (exists a b, In a (units g) /\ In b (units g)
               /\ (In a (minors g) \/ In b (minors g))
               /\ signature a = from /\ signature b = to).
Proof.
  unfold entry_key, units. split.
  - intros (c & Hc & Hk). apply In_converter_traits in Hc.
    destruct Hc as [(m & d & Hm & ->) | (first & second & Hf & Hs & ->)];
      cbn [from_signature to_signature] in Hk; injection Hk as <- <-.
    + destruct d; cbn [negb].
      * exists m, (primary g). simpl. auto 6.
      * exists (primary g), m. simpl. auto 6.
    + exists second, first. simpl. auto 6.
  - intros (a & b & Ha & Hb & Hab & <- & <-).
    destruct Hab as [Ham | Hbm].
    + destruct Hb as [<- | Hbm].
      * exists (primary_metrics_converter (primary g) a true). split.
        -- apply In_converter_traits. left. exists a, true. auto.
        -- reflexivity.
      * exists (minor_metrics_converter (primary g) b a). split.
        -- apply In_converter_traits. right. exists b, a. auto.
        -- reflexivity.
    + destruct Ha as [<- | Ham].
      * exists (primary_metrics_converter (primary g) b false). split.
        -- apply In_converter_traits. left. exists b, false. auto.
        -- reflexivity.
      * exists (minor_metrics_converter (primary g) b a). split.
        -- apply In_converter_traits. right. exists b, a. auto.
        -- reflexivity.
Qed.

Lemma converter_traits_requests_witness :
  exists a b, In a (units weight_metrics) /\ In b (units weight_metrics)
              /\ (In a (minors weight_metrics) \/ In b (minors weight_metrics))
              /\ signature a = "p" /\ signature b = "lb".
Proof.
  apply (proj1 (converter_traits_requests weight_metrics "p" "lb")).
  exists (minor_metrics_converter gramm lb pood). split.
  - simpl. tauto.
  - reflexivity.
Defined.

(** ** The chain and its order *)

(** X3. Registering groups puts every entry in front of those registered
    before it: the chain is the reverse of the entries of the groups in
    registration order, followed by the chain there was. *)
Theorem add_responsible_groups_rev (groups : list metrics) (r : responsible) :
  add_responsible_groups groups r
  = rev (concat (map converter_traits groups)) ++ r.
Proof.
  revert r. induction groups as [|g groups IH]; intros r; simpl.
  - reflexivity.
  - rewrite IH, add_responsibles_rev, rev_app_distr, <- app_assoc. reflexivity.
Qed.

Lemma is_reponsible_key (c : metrics_converter) (from to : string) :
  is_reponsible c from to = true <-> entry_key c = (from, to).
Proof.
  unfold is_reponsible, entry_key. rewrite andb_true_iff, !String.eqb_eq.
  split; [intros [-> ->]; reflexivity | intros [= -> ->]; auto].
Qed.

Lemma find_responsible_Some (r : responsible) from to c :
  find_responsible r from to = Some c -> In c r /\ entry_key c = (from, to).
Proof.
  induction r as [|c' r IH]; simpl; [discriminate|].
  destruct (is_reponsible c' from to) eqn:E.
  - intros [= <-]. split; [left; reflexivity | apply is_reponsible_key, E].
  - intros Hf. destruct (IH Hf) as [Hin Hk]. auto.
Qed.

Lemma find_responsible_None (r : responsible) from to :
  find_responsible r from to = None <->
  forall c, In c r -> entry_key c <> (from, to).
Proof.
  induction r as [|c' r IH]; simpl.
  - split; [intros _ c [] | reflexivity].
  - destruct (is_reponsible c' from to) eqn:E.
    + split; [discriminate|]. intros Hno. exfalso.
      apply (Hno c' (or_introl eq_refl)), is_reponsible_key, E.
    + rewrite IH. split.
      * intros Hno c [<- | Hin]; [|auto].
        intros Hk. apply is_reponsible_key in Hk. congruence.
      * intros Hno c Hin. apply Hno. auto.
Qed.

Lemma find_responsible_unique (r : responsible) from to c :
  NoDup (map entry_key r) ->
  In c r -> entry_key c = (from, to) ->
  find_responsible r from to = Some c.
Proof.
  induction r as [|c' r IH]; simpl; intros Hnd Hin Hk; [destruct Hin|].
  inversion Hnd as [|k ks Hnotin Hnd']; subst.
  destruct Hin as [-> | Hin].
  - apply is_reponsible_key in Hk. rewrite Hk. reflexivity.
  - destruct (is_reponsible c' from to) eqn:E.
    + exfalso. apply Hnotin. apply is_reponsible_key in E.
      rewrite E, <- Hk. apply in_map, Hin.
    + apply IH; assumption.
Qed.

Section Chain.

Context {F : Type} `{FloatOps F}.

(** X4. The first responsible handler of a chain answers: when no handler
    before [c] has the requested pair and [c] has it, the chain returns what
    [c] converts, whatever follows [c]. *)
Theorem responsible_process_first_match
    (pre post : responsible) (c : metrics_converter) (from to : string) (value : F) :
  (forall c', In c' pre -> entry_key c' <> (from, to)) ->
  entry_key c = (from, to) ->
  responsible_process (pre ++ c :: post) from to value
  = x <- convert c value ;; ret (Some x).
Proof.
  intros Hpre Hc. induction pre as [|c' pre IH]; simpl.
  - unfold entry_key in Hc. injection Hc as Hf Ht.
    unfold is_reponsible. rewrite Hf, Ht, !String.eqb_refl. reflexivity.
  - destruct (is_reponsible c' from to) eqn:E.
    + exfalso. apply (Hpre c' (or_introl eq_refl)).
      unfold is_reponsible in E. apply andb_true_iff in E as [E1 E2].
      apply String.eqb_eq in E1, E2. unfold entry_key. congruence.
    + apply IH. intros c'' Hin. apply Hpre. right. exact Hin.
Qed.

(** X5. In a chain where no two handlers have the same pair of signatures,
    the order of the handlers does not matter: every permutation of the
    chain gives the same answer to every request. *)
Theorem responsible_process_permutation (r r' : responsible) from to (value : F) :
  NoDup (map entry_key r) ->
  Permutation r r' ->
  responsible_process r from to value = responsible_process r' from to value.
Proof.
  intros Hnd Hperm. rewrite !responsible_process_find.
  assert (Hnd' : NoDup (map entry_key r')).
  { apply (Permutation_NoDup (Permutation_map entry_key Hperm) Hnd). }
  destruct (find_responsible r from to) as [c|] eqn:E.
  - apply find_responsible_Some in E as [Hin Hk].
    rewrite (find_responsible_unique r' from to c Hnd'
               (Permutation_in c Hperm Hin) Hk).
    reflexivity.
  - assert (E' : find_responsible r' from to = None).
    { apply find_responsible_None. intros c Hin.
      apply (proj1 (find_responsible_None r from to) E).
      apply (Permutation_in c (Permutation_sym Hperm) Hin). }
    rewrite E'. reflexivity.
Qed.

(** Gives the group and the two units of a request that an entry of the
    chain answers. *)
Ltac supported_by a b :=
  first
    [ solve [exists weight_metrics, a, b; simpl; repeat split; auto 8]
    | solve [exists distance_metrics, a, b; simpl; repeat split; auto 8]
    | solve [exists temperature_metrics, a, b; simpl; repeat split; auto 8] ].

(** X6. [process] returns the absence value exactly for the requests that
    are not between two units of one group, and for those from a primary to
    itself: it answers every ordered pair of units of a group in which at
    least one is a minor, with a value or an exception. *)
Theorem process_absent_iff (from to : string) (value : F) :
  process from to value = ret None <->
  ~ (exists g a b,
        In g [weight_metrics; distance_metrics; temperature_metrics]
        /\ In a (units g) /\ In b (units g)
        /\ (In a (minors g) \/ In b (minors g))
        /\ signature a = from /\ signature b = to).
Proof.
  rewrite process_find. split.
  - intros Hp (g & a & b & Hg & Ha & Hb & Hab & <- & <-).
    simpl in Hg. destruct Hg as [<- | [<- | [<- | []]]];
      simpl in Ha, Hb, Hab;
      destruct Ha as [<- | [<- | [<- | []]]];
      destruct Hb as [<- | [<- | [<- | []]]];
      try (destruct Hab as [[Hab | [Hab | []]] | [Hab | [Hab | []]]];
           discriminate Hab);
      match type of Hp with
      | context [find_responsible ?r ?x ?y] =>
          let c := eval vm_compute in (find_responsible r x y) in
          change (find_responsible r x y) with c in Hp
      end;
      cbv beta iota in Hp;
      match type of Hp with
      | context [convert ?c value] => destruct (convert c value); discriminate Hp
      end.
  - intros Hno.
    destruct (find_responsible instance from to) as [c|] eqn:E; [exfalso|reflexivity].
    apply find_responsible_Some in E as [Hin Hk]. apply Hno.
    unfold entry_key in Hk. simpl in Hin.
    repeat (destruct Hin as [<- | Hin];
      [ cbn [from_signature to_signature negb] in Hk;
        match type of Hk with
        | (signature ?x, signature ?y) = _ =>
            injection Hk as <- <-; supported_by x y
        end |]).
    destruct Hin.
Qed.

End Chain.

Lemma responsible_process_first_match_witness :
  @responsible_process _ binary32
    ([minor_metrics_converter gramm lb lb]
     ++ primary_metrics_converter gramm lb true
     :: [primary_metrics_converter gramm pood true])
    "lb" "g" (fconst 2 1)
  = x <- convert (primary_metrics_converter gramm lb true) (fconst 2 1) ;; ret (Some x).
Proof.
  apply responsible_process_first_match.
  - intros c' [<- | []]. discriminate.
  - reflexivity.
Defined.

Lemma responsible_process_permutation_witness :
  @responsible_process _ binary32 instance "lb" "g" (fconst 2 1)
  = responsible_process (rev instance) "lb" "g" (fconst 2 1).
Proof.
  apply responsible_process_permutation.
  - exact instance_keys_NoDup.
  - apply Permutation_rev.
Defined.

Lemma process_absent_iff_witness :
  ~ (exists g a b,
        In g [weight_metrics; distance_metrics; temperature_metrics]
        /\ In a (units g) /\ In b (units g)
        /\ (In a (minors g) \/ In b (minors g))
        /\ signature a = "g" /\ signature b = "g").
Proof.
  apply (proj1 (@process_absent_iff _ binary32 "g" "g" (fconst 5 1))).
  rewrite process_find. reflexivity.
Defined.

(** ** Requests never throw *)


Lemma converter_declared_binary32 :
  Forall (fun pm => exists t, @converter _ binary32 (fst pm) (snd pm) = ret t)
         declared_pairs.
Proof. repeat constructor; eexists; reflexivity. Qed.

Section NoThrow.
Context {F : Type} `{FloatOps F}.

(** When the declared transforms can be constructed, every handler of the
    chain converts every value. *)
Lemma convert_instance_ok (c : metrics_converter) (v : F) :
  Forall (fun pm => exists t, converter (fst pm) (snd pm) = ret t) declared_pairs ->
  In c instance ->
  exists x, convert c v = ret x.
Proof.
  intros Hdecl Hin. rewrite Forall_forall in Hdecl.
  assert (Hd : forall p m, In (p, m) declared_pairs -> exists t, converter p m = ret t).
  { intros p m Hpm. exact (Hdecl (p, m) Hpm). }
  simpl in Hin.
  repeat (destruct Hin as [<- | Hin];
    [unfold convert; cbn [is_same];
     repeat match goal with
       | |- context [converter ?p ?m] =>
           let t := fresh "t" in
           let E := fresh "E" in
           destruct (Hd p m) as [t E]; [simpl; tauto | rewrite E]
       end;
     cbn [bind]; eexists; reflexivity |]).
  destruct Hin.
Qed.

Lemma process_ok (from to : string) (v : F) :
  Forall (fun pm => exists t, converter (fst pm) (snd pm) = ret t) declared_pairs ->
  exists o, process from to v = ret o.
Proof.
  intros Hdecl. rewrite process_find.
  destruct (find_responsible instance from to) as [c|] eqn:E;
    [|eexists; reflexivity].
  apply find_responsible_Some in E as [Hin _].
  destruct (convert_instance_ok c v Hdecl Hin) as [x ->].
  eexists. reflexivity.
Qed.

End NoThrow.

(** X7. With single precision arithmetic and with exact arithmetic alike,
    [process] never ends in an exception: each of the six transforms is
    constructed, and no handler asks for a transform that is not declared. *)
Theorem process_never_throws (from to : string) :
  (forall v : Binary32.float, exists o, process from to v = ret o)
  /\ (forall v : Qc, exists o, process from to v = ret o).
Proof.
  split; intros v.
  - apply process_ok, converter_declared_binary32.
  - apply process_ok, Exact.converter_declared.
Qed.

(** ** The guard of the constructor *)


Module GuardFacts.
Import Binary32 Binary32Facts.

Lemma digits2_pos_upper (m : positive) :
  Zpos m < 2 ^ Zpos (digits2_pos m).
Proof.
  induction m as [p IH | p IH |]; simpl digits2_pos.
  - rewrite Pos2Z.inj_succ, Z.pow_succ_r by lia. lia.
  - rewrite Pos2Z.inj_succ, Z.pow_succ_r by lia. lia.
  - simpl. lia.
Qed.

Lemma bounded_mantissa m e :
  bounded prec emax m e = true -> Zpos m < 2 ^ 24.
Proof.
  unfold bounded, canonical_mantissa, fexp, SpecFloat.emin, prec, emax.
  intros Hb. apply andb_true_iff in Hb as [Hc _]. apply Z.eqb_eq in Hc.
  assert (Hd : Zpos (digits2_pos m) <= 24) by lia.
  apply Z.lt_le_trans with (1 := digits2_pos_upper m).
  apply Z.pow_le_mono_r; lia.
Qed.

(** The value of the rounded [EPSILON]. *)
Lemma to_Q_EPSILON : to_Q EPSILON = 14411519 # 144115188075855872.
Proof. reflexivity. Qed.

Lemma below_EPSILON_iff m e :
  bounded prec emax m e = true ->
  SFltb (S754_finite false m e) (S754_finite false 14411519 (-57)) = true
  <-> (to_Q (S754_finite false m e) < (14411519 # 144115188075855872))%Q.
Proof.
  intros Hb. rewrite SFltb_positive.
  pose proof (bounded_mantissa m e Hb) as Hup.
  change (2 ^ 24) with 16777216 in Hup.
  unfold to_Q, Qlt.
  destruct (Z.compare_spec e (-57)) as [-> | Hl | Hg].
  - cbn [Qnum Qden].
    change (Zpos (2 ^ 57)) with 144115188075855872.
    rewrite <- Z.mul_lt_mono_pos_r by reflexivity.
    change (Zpos m < 14411519) with (m < 14411519)%positive.
    rewrite <- Pos.compare_lt_iff.
    destruct (m ?= 14411519)%positive; split; congruence.
  - split; [intros _ | reflexivity].
    destruct e as [| p | p]; try lia. cbn [Qnum Qden].
    assert (Hpow : 2 ^ 58 <= Zpos (2 ^ p)).
    { rewrite Pos2Z.inj_pow. apply Z.pow_le_mono_r; lia. }
    change (2 ^ 58) with 288230376151711744 in Hpow.
    apply Z.lt_le_trans with (16777216 * 144115188075855872).
    + apply Z.mul_lt_mono_pos_r; [reflexivity | exact Hup].
    + apply Z.le_trans with (14411519 * 288230376151711744).
      * vm_compute. discriminate.
      * apply Z.mul_le_mono_nonneg_l; [discriminate | exact Hpow].
  - split; [discriminate | intros Hlt; exfalso].
    assert (Hm : 2 ^ 23 <= Zpos m) by (apply (bounded_normal m e Hb); lia).
    change (2 ^ 23) with 8388608 in Hm.
    destruct e as [| p | p]; cbn [Qnum Qden] in Hlt.
    + lia.
    + lia.
    + assert (Hpow : Zpos (2 ^ p) <= 2 ^ 56).
      { rewrite Pos2Z.inj_pow. apply Z.pow_le_mono_r; lia. }
      change (2 ^ 56) with 72057594037927936 in Hpow.
      assert (H1 : 8388608 * 144115188075855872 <= Zpos m * 144115188075855872).
      { apply Z.mul_le_mono_nonneg_r; [discriminate | exact Hm]. }
      assert (H2 : 14411519 * Zpos (2 ^ p) <= 14411519 * 72057594037927936).
      { apply Z.mul_le_mono_nonneg_l; [discriminate | exact Hpow]. }
      pose proof (Z.le_lt_trans _ _ _ H1 (Z.lt_le_trans _ _ _ Hlt H2)) as Habs.
      vm_compute in Habs. discriminate Habs.
Qed.

Lemma Qabs_to_Q_eq s m e :
  (Qabs (to_Q (S754_finite s m e)) == to_Q (S754_finite false m e))%Q.
Proof.
  assert (Hnn : (0 <= to_Q (S754_finite false m e))%Q).
  { unfold to_Q, Qle. destruct e; cbn [Qnum Qden]; lia. }
  destruct s.
  - change (to_Q (S754_finite true m e)) with (- to_Q (S754_finite false m e))%Q.
    apply Qeq_trans with (Qabs (to_Q (S754_finite false m e))).
    + apply Qabs_opp.
    + apply Qabs_pos, Hnn.
  - apply Qabs_pos, Hnn.
Qed.

Lemma guard_iff (x : float) :
  valid_binary prec emax x = true ->
  fltb (fabs x) EPSILON = true
  <-> is_finite x = true /\ (Qabs (to_Q x) < (14411519 # 144115188075855872))%Q.
Proof.
  intros Hv. destruct x as [s | s | | s m e].
  - split; [intros _; split; reflexivity | intros _; vm_compute; reflexivity].
  - split; [vm_compute; discriminate | intros [Hf _]; discriminate Hf].
  - split; [vm_compute; discriminate | intros [Hf _]; discriminate Hf].
  - change (bounded prec emax m e = true) in Hv.
    change (fltb (fabs (S754_finite s m e)) EPSILON)
      with (SFltb (S754_finite false m e) (@EPSILON _ binary32)).
    destruct catalog_literals as (_ & _ & _ & _ & _ & _ & ->).
    rewrite (below_EPSILON_iff m e Hv).
    split.
    + intros Hlt. split; [reflexivity|].
      apply Qle_lt_trans with (2 := Hlt).
      apply Qle_lteq. right. apply Qabs_to_Q_eq.
    + intros [_ Hlt]. apply Qle_lt_trans with (2 := Hlt).
      apply Qle_lteq. right. symmetry. apply Qabs_to_Q_eq.
Qed.

End GuardFacts.

(** X8. For a [float] factor, the constructor of [linear] throws exactly
    when the factor is finite and its magnitude is below the value of the
    rounded [EPSILON]; otherwise it builds the object with the factor, its
    reciprocal and the offset.  A NaN or an infinite factor is not
    rejected. *)
Theorem linear_new_guard (factor offset : Binary32.float) :
  valid_binary Binary32.prec Binary32.emax factor = true ->
  (Binary32.is_finite factor = true
   /\ (Qabs (Binary32.to_Q factor) < Binary32.to_Q EPSILON)%Q ->
   linear_new factor offset = throw "'factor' argument is too small!")
  /\ (~ (Binary32.is_finite factor = true
         /\ (Qabs (Binary32.to_Q factor) < Binary32.to_Q EPSILON)%Q) ->
      linear_new factor offset
      = ret {| m_factor := factor;
               m_divider := fdiv (fconst 1 1) factor;
               m_offset := offset |}).
Proof.
  intros Hv. pose proof (GuardFacts.guard_iff factor Hv) as Hg.
  rewrite GuardFacts.to_Q_EPSILON. unfold linear_new.
  destruct (fltb (fabs factor) EPSILON).
  - split; [reflexivity|]. intros Hn. exfalso. apply Hn, Hg. reflexivity.
  - split; [|reflexivity]. intros Hy. apply Hg in Hy. discriminate Hy.
Qed.

Lemma linear_new_guard_witness :
  @linear_new _ binary32 S754_nan (fconst 0 1)
  = ret {| m_factor := S754_nan;
           m_divider := fdiv (fconst 1 1) S754_nan;
           m_offset := fconst 0 1 |}.
Proof.
  apply (proj2 (linear_new_guard S754_nan (fconst 0 1) eq_refl)).
  intros [Hf _]. discriminate Hf.
Defined.

(** ** Requests in single precision *)

(** X9. In single precision, for each declared pair and every [float] value
    [v], the request from the minor to the primary followed by the request
    from the primary to the minor, and the two in the other order, are
    answered; when the last answer is finite, [v] is finite and the answer
    is within [1e-6 * |v| + slack] of [v], where [slack] is [1e-4] for the
    temperature pairs and [1e-40] for the others; and it is finite when [v]
    is finite of magnitude at most [1e24]. *)
Theorem process_primary_round_trip (p m : metric) (v : Binary32.float) :
  In (p, m) declared_pairs ->
  (exists w r : Binary32.float,
      process (signature m) (signature p) v = ret (Some w)
      /\ process (signature p) (signature m) w = ret (Some r)
      /\ (Binary32.is_finite r = true ->
          Binary32.is_finite v = true
          /\ near (1 # 1000000) (slack m) (Binary32.to_Q r) (Binary32.to_Q v))
      /\ (Binary32.is_finite v = true -> (Qabs (Binary32.to_Q v) <= range)%Q ->
          Binary32.is_finite r = true))
  /\ (exists w r : Binary32.float,
        process (signature p) (signature m) v = ret (Some w)
        /\ process (signature m) (signature p) w = ret (Some r)
        /\ (Binary32.is_finite r = true ->
            Binary32.is_finite v = true
            /\ near (1 # 1000000) (slack m) (Binary32.to_Q r) (Binary32.to_Q v))
        /\ (Binary32.is_finite v = true -> (Qabs (Binary32.to_Q v) <= range)%Q ->
            Binary32.is_finite r = true)).
Proof.
  intros Hin. simpl in Hin.
  repeat (destruct Hin as [[= <- <-] | Hin];
    [ cbn [signature]; split; do 2 eexists;
      (split; [request|]); (split; [request|]);
      apply Conversions.run_identity; vm_compute; reflexivity |]).
  destruct Hin.
Qed.

Lemma process_primary_round_trip_witness :
  exists w r : Binary32.float,
    process "k" "c" (fconst 300 1) = ret (Some w)
    /\ process "c" "k" w = ret (Some r)
    /\ Binary32.is_finite r = true
    /\ near (1 # 1000000) (1 # 10000) (Binary32.to_Q r) (Binary32.to_Q (fconst 300 1)).
Proof.
  destruct (process_primary_round_trip celsius kelvin (fconst 300 1))
    as [(w & r & Hw & Hr & Hnear & Hfin) _].
  - simpl. tauto.
  - exists w, r. split; [exact Hw|]. split; [exact Hr|].
    assert (Hf : Binary32.is_finite r = true)
      by (apply Hfin; [reflexivity | vm_compute; discriminate]).
    split; [exact Hf|]. apply Hnear, Hf.
Defined.

(** The answer of a request between a primary and a minor of a scaling
    pair, against the scaling by [T]. *)
Ltac scaling_request T :=
  eexists; split; [request|];
  apply (Conversions.run_scaling _ T);
  [vm_compute; reflexivity | vm_compute; reflexivity | unfold Qdiv; ring].

(** X10. In single precision, in the weight and distance groups the request
    from a minor to the primary answers every [float] value [v] with [v]
    times the declared factor, and the request from the primary to the minor
    with [v] divided by it, within [1e-6] of that number in relative terms
    plus [1e-40]: when the answer is finite; it is finite when [v] is finite
    of magnitude at most [1e24]. *)
Theorem process_scaling_table (v : Binary32.float) :
  converts_to (1 # 1000000) tiny "lb" "g" v (Binary32.to_Q v * (453592 # 1000))
  /\ converts_to (1 # 1000000) tiny "g" "lb" v (Binary32.to_Q v / (453592 # 1000))
  /\ converts_to (1 # 1000000) tiny "p" "g" v (Binary32.to_Q v * (163807 # 10))
  /\ converts_to (1 # 1000000) tiny "g" "p" v (Binary32.to_Q v / (163807 # 10))
  /\ converts_to (1 # 1000000) tiny "ml" "m" v (Binary32.to_Q v * (160934 # 100))
  /\ converts_to (1 # 1000000) tiny "m" "ml" v (Binary32.to_Q v / (160934 # 100))
  /\ converts_to (1 # 1000000) tiny "v" "m" v (Binary32.to_Q v * (10668 # 10))
  /\ converts_to (1 # 1000000) tiny "m" "v" v (Binary32.to_Q v / (10668 # 10)).
Proof.
  unfold converts_to.
  split; [scaling_request (453592 # 1000)|].
  split; [scaling_request (/ (453592 # 1000))%Q|].
  split; [scaling_request (163807 # 10)|].
  split; [scaling_request (/ (163807 # 10))%Q|].
  split; [scaling_request (160934 # 100)|].
  split; [scaling_request (/ (160934 # 100))%Q|].
  split; [scaling_request (10668 # 10)|].
  scaling_request (/ (10668 # 10))%Q.
Qed.

(** X11. In single precision, in the weight and distance groups, for two
    minors and every [float] value: the request from one minor to the other
    and the route through the primary (from the first minor to the primary,
    then from the primary to the second minor) are answered; when the two
    answers are finite, the direct one is within [1e-6] of the routed one in
    relative terms plus [1e-40]; both are finite when the value is finite of
    magnitude at most [1e24].  The two need not be equal. *)
Theorem minor_through_primary
    (g : metrics) (first second : metric) (v : Binary32.float) :
  In g [weight_metrics; distance_metrics] ->
  In first (minors g) -> In second (minors g) ->
  exists w direct routed : Binary32.float,
    process (signature second) (signature first) v = ret (Some direct)
    /\ process (signature second) (signature (primary g)) v = ret (Some w)
    /\ process (signature (primary g)) (signature first) w = ret (Some routed)
    /\ (Binary32.is_finite direct = true -> Binary32.is_finite routed = true ->
        near (1 # 1000000) tiny (Binary32.to_Q direct) (Binary32.to_Q routed))
    /\ (Binary32.is_finite v = true -> (Qabs (Binary32.to_Q v) <= range)%Q ->
        Binary32.is_finite direct = true /\ Binary32.is_finite routed = true).
Proof.
  intros Hg H1 H2. simpl in Hg.
  destruct Hg as [<- | [<- | []]]; simpl in H1, H2;
    destruct H1 as [<- | [<- | []]]; destruct H2 as [<- | [<- | []]];
    cbn [primary weight_metrics distance_metrics signature];
    do 3 eexists;
    (split; [first [request | eval_find; reflexivity]|]);
    (split; [request|]); (split; [request|]);
    match goal with
    | |- (Binary32.is_finite (Steps.run ?s1 v) = true
          -> Binary32.is_finite (Steps.run ?s2 v) = true -> _) /\ _ =>
        apply (Conversions.run_agree s1 s2 v); vm_compute; reflexivity
    | |- (Binary32.is_finite v = true
          -> Binary32.is_finite (Steps.run ?s2 v) = true -> _) /\ _ =>
        apply (Conversions.run_agree [] s2 v); vm_compute; reflexivity
    end.
Qed.

Lemma minor_through_primary_witness :
  exists w direct routed : Binary32.float,
    process "lb" "p" (fconst 5 1) = ret (Some direct)
    /\ process "lb" "g" (fconst 5 1) = ret (Some w)
    /\ process "g" "p" w = ret (Some routed)
    /\ direct <> routed
    /\ near (1 # 1000000) tiny (Binary32.to_Q direct) (Binary32.to_Q routed).
Proof.
  destruct (minor_through_primary weight_metrics pood lb (fconst 5 1))
    as (w & direct & routed & Hd & Hw & Hr & Hnear & Hfin).
  - simpl. tauto.
  - simpl. tauto.
  - simpl. tauto.
  - exists w, direct, routed.
    split; [exact Hd|]. split; [exact Hw|]. split; [exact Hr|].
    split.
    + vm_compute in Hw. injection Hw as <-.
      vm_compute in Hr. injection Hr as <-.
      vm_compute in Hd. injection Hd as <-.
      discriminate.
    + destruct Hfin as [F1 F2]; [reflexivity | vm_compute; discriminate |].
      apply Hnear; assumption.
Defined.

(** X12. In single precision a conversion can send two different values to
    the same result: the requests from "c" to "k" and from "k" to "c" answer
    0 and the millionth [1e-6f] alike, the offset 273.15 absorbs the
    difference. *)
Theorem process_not_injective :
  (fconst 0 1 : Binary32.float) <> fconst 1 1000000
  /\ @process _ binary32 "c" "k" (fconst 0 1) = process "c" "k" (fconst 1 1000000)
  /\ @process _ binary32 "k" "c" (fconst 0 1) = process "k" "c" (fconst 1 1000000).
Proof.
  split; [vm_compute; discriminate|]. split; vm_compute; reflexivity.
Qed.

(** ** The request handler *)


Lemma last_value_snoc key params k v :
  last_value key (params ++ [(k, v)])
  = if String.eqb k key then v else last_value key params.
Proof.
  unfold last_value. rewrite rev_app_distr. simpl.
  destruct (String.eqb k key); reflexivity.
Qed.

(** What the loop fetches: for each of the three keys the value of its last
    parameter. *)
Lemma fetch_parameters_eq (params : list (string * string)) :
  fetch_parameters params
  = (last_value "from" params, last_value "to" params, last_value "value" params).
Proof.
  induction params as [|[k v] params IH] using rev_ind.
  - reflexivity.
  - unfold fetch_parameters in *. rewrite fold_left_app, IH. simpl.
    rewrite !last_value_snoc.
    destruct (String.eqb k "from") eqn:Ef.
    + apply String.eqb_eq in Ef. subst k. reflexivity.
    + destruct (String.eqb k "to") eqn:Et.
      * apply String.eqb_eq in Et. subst k. reflexivity.
      * destruct (String.eqb k "value"); reflexivity.
Qed.

Lemma last_value_absent key params :
  (forall p, In p params -> fst p <> key) -> last_value key params = EmptyString.
Proof.
  intros Hno. unfold last_value.
  destruct (find _ (rev params)) as [p|] eqn:E; [exfalso | reflexivity].
  apply find_some in E as [Hin Hk]. apply in_rev in Hin.
  apply String.eqb_eq in Hk. exact (Hno p Hin Hk).
Qed.

Lemma no_empty_signature (c : metrics_converter) :
  In c instance ->
  from_signature c <> EmptyString /\ to_signature c <> EmptyString.
Proof.
  intros Hin. simpl in Hin.
  repeat (destruct Hin as [<- | Hin]; [split; discriminate|]).
  destruct Hin.
Qed.

Section HandlerFacts.

Context {F : Type} `{FloatOps F}.
Context {Method : Type} (Get : Method).
Context (Method_eq_dec : forall a b : Method, {a = b} + {a <> b}).
Context (stof : string -> option F) (to_string : F -> string).

Lemma process_empty_signature (from to : string) (value : F) :
  from = EmptyString \/ to = EmptyString ->
  process from to value = ret None.
Proof.
  intros Hempty. rewrite process_find.
  assert (E : find_responsible instance from to = None).
  { apply find_responsible_None. intros c Hin Hk.
    destruct (no_empty_signature c Hin) as [Hf Ht].
    unfold entry_key in Hk. injection Hk as Hfrom Hto.
    destruct Hempty; congruence. }
  rewrite E. reflexivity.
Qed.

(** X13. A query parameter whose key is none of "from", "to" and "value"
    changes nothing, wherever it stands among the parameters: the handler
    sends the response it sends without it. *)
Theorem onRequest_ignores_parameter
    (request : Request Method) (before after : list (string * string))
    (key key_value : string) :
  key <> "from" -> key <> "to" -> key <> "value" ->
  parameters request = before ++ (key, key_value) :: after ->
  onRequest Get Method_eq_dec stof to_string request
  = onRequest Get Method_eq_dec stof to_string
      {| method := method request; resource := resource request;
         parameters := before ++ after |}.
Proof.
  intros Hf Ht Hv Hp. unfold onRequest. cbn [method resource parameters].
  rewrite Hp.
  assert (Hfetch : fetch_parameters (before ++ (key, key_value) :: after)
                   = fetch_parameters (before ++ after)).
  { unfold fetch_parameters. rewrite !fold_left_app. cbn [fold_left].
    f_equal.
    destruct (fold_left fetch_parameter before (EmptyString, EmptyString, EmptyString))
      as [[from to] value].
    unfold fetch_parameter.
    apply String.eqb_neq in Hf, Ht, Hv. rewrite Hf, Ht, Hv. reflexivity. }
  rewrite Hfetch. reflexivity.
Qed.

(** X14. A request for the resource "/convert" with the method GET, whose
    value is read as a number and which has no "from" parameter or no "to"
    parameter, is answered with "Unknown conversion type!": the missing
    signature is the empty string, and no handler has it. *)
Theorem onRequest_missing_unit (request : Request Method) (from_value : F) :
  method request = Get ->
  resource request = "/convert" ->
  (forall p, In p (parameters request) -> fst p <> "from")
  \/ (forall p, In p (parameters request) -> fst p <> "to") ->
  stof (last_value "value" (parameters request)) = Some from_value ->
  onRequest Get Method_eq_dec stof to_string request
  = ret (send Not_Implemented "Unknown conversion type!" None).
Proof.
  intros Hm Hr Hmissing Hstof. unfold onRequest.
  rewrite Hm, Hr. destruct (Method_eq_dec Get Get) as [_ | Hne]; [|contradiction].
  cbn [orb negb]. rewrite String.eqb_refl. cbn [negb].
  rewrite fetch_parameters_eq, Hstof.
  rewrite process_empty_signature; [reflexivity|].
  destruct Hmissing as [Hno | Hno]; [left | right]; apply last_value_absent, Hno.
Qed.

(** X15. The response has the code [Ok] exactly when the method is GET, the
    resource is "/convert", the last "value" parameter is read as a number
    and [process] converts it between the last "from" and "to" parameters;
    the body is then the JSON text with the result and the type is
    text/plain. *)
Theorem onRequest_Ok_iff (request : Request Method) (response : Response) :
  onRequest Get Method_eq_dec stof to_string request = ret response ->
  (code response = Ok <->
   method request = Get /\ resource request = "/convert"
   /\ exists from_value r,
        stof (last_value "value" (parameters request)) = Some from_value
        /\ process (last_value "from" (parameters request))
                   (last_value "to" (parameters request)) from_value
           = ret (Some r)
        /\ response = send Ok (json_response to_string r) (Some Text_Plain)).
Proof.
  unfold onRequest. rewrite fetch_parameters_eq.
  destruct (Method_eq_dec (method request) Get) as [Hm | Hm]; cbn [orb].
  - destruct (String.eqb (resource request) "/convert") eqn:Er; cbn [negb].
    + apply String.eqb_eq in Er.
      destruct (stof (last_value "value" (parameters request))) as [x|].
      * destruct (process (last_value "from" (parameters request))
                          (last_value "to" (parameters request)) x)
          as [e | [r |]] eqn:Ep; cbn [bind].
        -- intros Habs. discriminate Habs.
        -- intros [= <-]. split; [intros _ | reflexivity].
           split; [exact Hm|]. split; [exact Er|].
           exists x, r. split; [reflexivity|]. split; [exact Ep | reflexivity].
        -- intros [= <-]. split; [discriminate|].
           intros (_ & _ & x' & r & [= <-] & Hp & _).
           rewrite Ep in Hp. discriminate Hp.
      * intros [= <-]. split; [discriminate|].
        intros (_ & _ & x' & r & Hs & _). discriminate Hs.
    + intros [= <-]. split; [discriminate|].
      intros (_ & Hr & _). rewrite Hr in Er. discriminate Er.
  - intros [= <-]. split; [discriminate|]. intros (Hm' & _). contradiction.
Qed.

End HandlerFacts.

Lemma onRequest_ignores_parameter_witness :
  @onRequest _ binary32 bool true Bool.bool_dec
    (fun _ => Some (fconst 1 1)) (fun _ => "1.000000")
    {| method := true; resource := "/convert";
       parameters := [("from", "lb")] ++ ("verbose", "1") :: [("to", "g"); ("value", "1")] |}
  = @onRequest _ binary32 bool true Bool.bool_dec
      (fun _ => Some (fconst 1 1)) (fun _ => "1.000000")
      {| method := true; resource := "/convert";
         parameters := [("from", "lb")] ++ [("to", "g"); ("value", "1")] |}.
Proof.
  apply (@onRequest_ignores_parameter _ binary32 bool true Bool.bool_dec
           (fun _ => Some (fconst 1 1)) (fun _ => "1.000000")
           {| method := true; resource := "/convert";
              parameters := [("from", "lb")] ++ ("verbose", "1")
                            :: [("to", "g"); ("value", "1")] |}
           [("from", "lb")] [("to", "g"); ("value", "1")] "verbose" "1").
  - discriminate.
  - discriminate.
  - discriminate.
  - reflexivity.
Defined.

Lemma onRequest_missing_unit_witness :
  @onRequest _ binary32 bool true Bool.bool_dec
    (fun _ => Some (fconst 1 1)) (fun _ => "1.000000")
    {| method := true; resource := "/convert";
       parameters := [("to", "g"); ("value", "1")] |}
  = ret (send Not_Implemented "Unknown conversion type!" None).
Proof.
  apply (@onRequest_missing_unit _ binary32 bool true Bool.bool_dec
           (fun _ => Some (fconst 1 1)) (fun _ => "1.000000") _ (fconst 1 1)).
  - reflexivity.
  - reflexivity.
  - left. intros p Hin. simpl in Hin.
    destruct Hin as [<- | [<- | []]]; discriminate.
  - reflexivity.
Defined.

Lemma onRequest_Ok_iff_witness :
  code (send Ok (json_response (fun _ : Binary32.float => "1.000000") (fconst 1 1))
             (Some Text_Plain)) = Ok
  <-> true = true /\ "/convert" = "/convert"
      /\ exists from_value r,
           Some (fconst 1 1) = Some from_value
           /\ @process _ binary32 "lb" "lb" from_value = ret (Some r)
           /\ send Ok (json_response (fun _ : Binary32.float => "1.000000") (fconst 1 1))
                   (Some Text_Plain)
              = send Ok (json_response (fun _ => "1.000000") r) (Some Text_Plain).
Proof.
  apply (@onRequest_Ok_iff _ binary32 bool true Bool.bool_dec
           (fun _ => Some (fconst 1 1)) (fun _ => "1.000000")
           {| method := true; resource := "/convert";
              parameters := [("from", "lb"); ("to", "lb"); ("value", "1")] |}).
  reflexivity.
Defined.

(** X16. With single precision arithmetic the handler sends a response to
    every request: no exception leaves [onRequest], whatever the method, the
    resource and the parameters are and whatever [std::stof] reads. *)
Theorem onRequest_responds
    {Method : Type} (Get : Method)
    (Method_eq_dec : forall a b : Method, {a = b} + {a <> b})
    (stof : string -> option Binary32.float) (to_string : Binary32.float -> string)
    (request : Request Method) :
  exists response,
    onRequest Get Method_eq_dec stof to_string request = ret response.
Proof.
  unfold onRequest.
  destruct (_ || _); [eexists; reflexivity|].
  destruct (fetch_parameters (parameters request)) as [[from to] value].
  destruct (stof value) as [x|]; [|eexists; reflexivity].
  destruct (process_ok from to x converter_declared_binary32) as [o ->].
  cbn [bind]. destruct o; eexists; reflexivity.
Qed.

(** ** The factory *)

Lemma is_same_eq (a b : metric) : is_same a b = true <-> a = b.
Proof. destruct a, b; simpl; split; congruence. Qed.

Section FactoryFacts.

Context {F : Type} `{FloatOps F}.

(** X17. The factory's objects stay the ones their constructors give: from
    such a state a call returns what a fresh construction returns and
    leaves such a state; after a call that returned an object, the next call
    for the pair returns the same object and constructs nothing. *)
Theorem factory_converter_coherent (p m : metric) (s : factory_state) :
  factory_coherent s ->
  fst (factory_converter p m s) = converter p m
  /\ factory_coherent (snd (factory_converter p m s))
  /\ (forall t, fst (factory_converter p m s) = ret t ->
        factory_converter p m (snd (factory_converter p m s))
        = (ret t, snd (factory_converter p m s))).
Proof.
  intros Hs. unfold factory_converter, converter.
  destruct (constructed p m s) as [t|] eqn:Ec.
  - cbn [fst snd]. split; [symmetry; apply Hs, Ec|]. split; [exact Hs|].
    intros t' [= <-]. rewrite Ec. reflexivity.
  - destruct (metric_conversion_type_new p m) as [e | t] eqn:En; cbn [fst snd].
    + split; [reflexivity|]. split; [exact Hs|]. intros t Habs. discriminate Habs.
    + assert (Hpp : is_same p p && is_same m m = true).
      { apply andb_true_iff. split; apply is_same_eq; reflexivity. }
      split; [reflexivity|]. split.
      * intros p' m' t'. cbn [constructed].
        destruct (is_same p' p && is_same m' m) eqn:E.
        -- apply andb_true_iff in E as [E1 E2].
           apply is_same_eq in E1, E2. subst p' m'. intros [= <-]. exact En.
        -- apply Hs.
      * intros t' [= <-]. cbn [constructed]. rewrite Hpp. reflexivity.
Qed.

End FactoryFacts.

Lemma factory_converter_coherent_witness :
  fst (@factory_converter _ binary32 gramm lb []) = converter gramm lb.
Proof.
  apply (proj1 (@factory_converter_coherent _ binary32 gramm lb [] ltac:(intros p m t; discriminate))).
Defined.

